(** * WebRTC signalling context (frontend/src/contexts/WebRTCContext.js)

    A shallow embedding of the streaming context: the reducer that holds the
    session state, the handlers the provider builds around one signalling
    socket and a registry of peer connections, and the operations it exposes
    to the components.

    Browser objects (peer connections, media tracks, the socket) are referred
    to by identity; every call the module makes on them is recorded, in
    order, in a trace.  Calls that may reject (the negotiation calls of a
    peer connection) consult an oracle, so that the [try]/[catch] blocks of
    the source keep their meaning.  Each handler runs to completion before
    the next event is delivered: the suspension points of the [async]
    handlers are not interleaved with other events. *)

From stdpp Require Import base option list strings gmap.
From Stdlib Require Import NArith ZArith Lia Sorted.

Set Warnings "-register-all".

(** ** JavaScript values that cross the wire *)

(** A parsed JSON payload.  Numbers are kept opaque. *)
Inductive jsval :=
| VUndef
| VNull
| VBool (b : bool)
| VNum (z : Z)
| VStr (s : string)
| VArr (items : list jsval)
| VObj (fields : list (string * jsval)).

Fixpoint assoc (k : string) (fields : list (string * jsval)) : jsval :=
  match fields with
  | [] => VUndef
  | (k', v) :: rest => if String.eqb k k' then v else assoc k rest
  end.

(** [v.k]: reading a property of [undefined] or [null] throws ([None]); a
    missing property reads as [undefined]. *)
Definition get_prop (v : jsval) (k : string) : option jsval :=
  match v with
  | VUndef | VNull => None
  | VObj fields => Some (assoc k fields)
  | _ => Some VUndef
  end.

(** A property key: [obj[undefined]] addresses the key "undefined". *)
Definition prop_key (id : option string) : string := default "undefined" id.

(** Text typed by the user: a sequence of UTF-16 code units. *)
Definition jsstring := list N.

(** WhiteSpace and LineTerminator code points of ECMAScript, the characters
    [String.prototype.trim] strips. *)
Definition is_js_space (c : N) : bool :=
  (N.leb 9 c && N.leb c 13) || N.eqb c 32 || N.eqb c 160 || N.eqb c 5760
  || (N.leb 8192 c && N.leb c 8202) || N.eqb c 8232 || N.eqb c 8233
  || N.eqb c 8239 || N.eqb c 8287 || N.eqb c 12288 || N.eqb c 65279.

Fixpoint trim_start (s : jsstring) : jsstring :=
  match s with
  | c :: rest => if is_js_space c then trim_start rest else s
  | [] => []
  end.

Definition trim_end (s : jsstring) : jsstring := rev (trim_start (rev s)).

Definition trim (s : jsstring) : jsstring := trim_end (trim_start s).

Definition code_units (s : string) : jsstring :=
  map (fun a => Ascii.N_of_ascii a) (String.list_ascii_of_string s).

(** ** Media handles *)

Record MediaStream := { ms_id : nat; getTracks : list nat }.

Global Instance MediaStream_eq_dec : EqDecision MediaStream.
Proof. solve_decision. Defined.

(** ** Session state (lines 18-30) *)

Record State := {
  localStream : option MediaStream;
  remoteStreams : gmap string (option nat);
  isStreaming : bool;
  isViewing : bool;
  connectionState : string;
  chatMessages : list jsval;
  streamInfo : jsval;
  viewers : list jsval;
  error : jsval;
  isConnected : bool;
  currentStreamId : option string
}.

Definition initialState : State := {|
  localStream := None;
  remoteStreams := ∅;
  isStreaming := false;
  isViewing := false;
  connectionState := "disconnected";
  chatMessages := [];
  streamInfo := VNull;
  viewers := [];
  error := VNull;
  isConnected := false;
  currentStreamId := None
|}.

(** ** Actions and the reducer (lines 32-75) *)

Inductive Action :=
| SET_LOCAL_STREAM (payload : option MediaStream)
| ADD_REMOTE_STREAM (userId : option string) (stream : option nat)
| REMOVE_REMOTE_STREAM (userId : option string)
| SET_STREAMING (payload : bool)
| SET_VIEWING (payload : bool)
| SET_CONNECTION_STATE (payload : string)
| ADD_CHAT_MESSAGE (message : jsval)
| SET_STREAM_INFO (payload : jsval)
| UPDATE_VIEWERS (payload : list jsval)
| SET_ERROR (payload : jsval)
| SET_CONNECTED (payload : bool)
| SET_CURRENT_STREAM (payload : option string)
| CLEAR_CHAT
| RESET_STATE
| OTHER_ACTION (type : string).

(** [arr.slice(-n)]: the last [n] items, the whole array when it is shorter. *)
Definition slice_last {A} (n : nat) (arr : list A) : list A :=
  drop (length arr - n) arr.

Definition webrtcReducer (state : State) (action : Action) : State :=
  match action with
  | SET_LOCAL_STREAM payload =>
      {| localStream := payload;
         remoteStreams := remoteStreams state; isStreaming := isStreaming state;
         isViewing := isViewing state; connectionState := connectionState state;
         chatMessages := chatMessages state; streamInfo := streamInfo state;
         viewers := viewers state; error := error state;
         isConnected := isConnected state; currentStreamId := currentStreamId state |}
  | ADD_REMOTE_STREAM userId stream =>
      {| localStream := localStream state;
         remoteStreams := <[prop_key userId := stream]> (remoteStreams state);
         isStreaming := isStreaming state;
         isViewing := isViewing state; connectionState := connectionState state;
         chatMessages := chatMessages state; streamInfo := streamInfo state;
         viewers := viewers state; error := error state;
         isConnected := isConnected state; currentStreamId := currentStreamId state |}
  | REMOVE_REMOTE_STREAM userId =>
      {| localStream := localStream state;
         remoteStreams := delete (prop_key userId) (remoteStreams state);
         isStreaming := isStreaming state;
         isViewing := isViewing state; connectionState := connectionState state;
         chatMessages := chatMessages state; streamInfo := streamInfo state;
         viewers := viewers state; error := error state;
         isConnected := isConnected state; currentStreamId := currentStreamId state |}
  | SET_STREAMING payload =>
      {| localStream := localStream state; remoteStreams := remoteStreams state;
         isStreaming := payload;
         isViewing := isViewing state; connectionState := connectionState state;
         chatMessages := chatMessages state; streamInfo := streamInfo state;
         viewers := viewers state; error := error state;
         isConnected := isConnected state; currentStreamId := currentStreamId state |}
  | SET_VIEWING payload =>
      {| localStream := localStream state; remoteStreams := remoteStreams state;
         isStreaming := isStreaming state;
         isViewing := payload;
         connectionState := connectionState state;
         chatMessages := chatMessages state; streamInfo := streamInfo state;
         viewers := viewers state; error := error state;
         isConnected := isConnected state; currentStreamId := currentStreamId state |}
  | SET_CONNECTION_STATE payload =>
      {| localStream := localStream state; remoteStreams := remoteStreams state;
         isStreaming := isStreaming state; isViewing := isViewing state;
         connectionState := payload;
         chatMessages := chatMessages state; streamInfo := streamInfo state;
         viewers := viewers state; error := error state;
         isConnected := isConnected state; currentStreamId := currentStreamId state |}
  | ADD_CHAT_MESSAGE message =>
      {| localStream := localStream state; remoteStreams := remoteStreams state;
         isStreaming := isStreaming state; isViewing := isViewing state;
         connectionState := connectionState state;
         chatMessages := slice_last 100 (chatMessages state ++ [message]);
         streamInfo := streamInfo state;
         viewers := viewers state; error := error state;
         isConnected := isConnected state; currentStreamId := currentStreamId state |}
  | SET_STREAM_INFO payload =>
      {| localStream := localStream state; remoteStreams := remoteStreams state;
         isStreaming := isStreaming state; isViewing := isViewing state;
         connectionState := connectionState state;
         chatMessages := chatMessages state;
         streamInfo := payload;
         viewers := viewers state; error := error state;
         isConnected := isConnected state; currentStreamId := currentStreamId state |}
  | UPDATE_VIEWERS payload =>
      {| localStream := localStream state; remoteStreams := remoteStreams state;
         isStreaming := isStreaming state; isViewing := isViewing state;
         connectionState := connectionState state;
         chatMessages := chatMessages state; streamInfo := streamInfo state;
         viewers := payload;
         error := error state;
         isConnected := isConnected state; currentStreamId := currentStreamId state |}
  | SET_ERROR payload =>
      {| localStream := localStream state; remoteStreams := remoteStreams state;
         isStreaming := isStreaming state; isViewing := isViewing state;
         connectionState := connectionState state;
         chatMessages := chatMessages state; streamInfo := streamInfo state;
         viewers := viewers state;
         error := payload;
         isConnected := isConnected state; currentStreamId := currentStreamId state |}
  | SET_CONNECTED payload =>
      {| localStream := localStream state; remoteStreams := remoteStreams state;
         isStreaming := isStreaming state; isViewing := isViewing state;
         connectionState := connectionState state;
         chatMessages := chatMessages state; streamInfo := streamInfo state;
         viewers := viewers state; error := error state;
         isConnected := payload;
         currentStreamId := currentStreamId state |}
  | SET_CURRENT_STREAM payload =>
      {| localStream := localStream state; remoteStreams := remoteStreams state;
         isStreaming := isStreaming state; isViewing := isViewing state;
         connectionState := connectionState state;
         chatMessages := chatMessages state; streamInfo := streamInfo state;
         viewers := viewers state; error := error state;
         isConnected := isConnected state;
         currentStreamId := payload |}
  | CLEAR_CHAT =>
      {| localStream := localStream state; remoteStreams := remoteStreams state;
         isStreaming := isStreaming state; isViewing := isViewing state;
         connectionState := connectionState state;
         chatMessages := [];
         streamInfo := streamInfo state;
         viewers := viewers state; error := error state;
         isConnected := isConnected state; currentStreamId := currentStreamId state |}
  | RESET_STATE =>
      {| localStream := localStream state;
         remoteStreams := remoteStreams initialState;
         isStreaming := isStreaming initialState;
         isViewing := isViewing initialState;
         connectionState := connectionState initialState;
         chatMessages := chatMessages initialState;
         streamInfo := streamInfo initialState;
         viewers := viewers initialState;
         error := error initialState;
         isConnected := isConnected initialState;
         currentStreamId := currentStreamId initialState |}
  | OTHER_ACTION _ => state
  end.

(** ** Browser objects and the effects on them *)

(** A peer connection of the registry, with the values its callbacks close
    over: the [userId] it was created for and the [state.currentStreamId] of
    the render whose [createPeerConnection] made it. *)
Record PeerConnection := {
  pc_id : nat;
  pc_userId : option string;
  pc_streamId : option string
}.

(** The socket of [connectWebSocket], with the [streamId] its listeners
    close over. *)
Record Socket := { sock_id : nat; sock_streamId : string }.

Inductive OutData :=
| DAnswer (pc : nat)
| DCandidate (candidate : jsval)
| DChat (content : jsstring).

(** An outbound envelope, the argument of [JSON.stringify]. *)
Record Envelope := {
  type : string;
  data : OutData;
  target_id : option string;
  stream_id : option string
}.

Inductive Effect :=
| NewPeerConnection (pc : nat)
| SetRemoteDescription (pc : nat) (description : jsval)
| AddTrack (pc : nat) (track : nat) (stream : nat)
| CreateAnswer (pc : nat)
| SetLocalDescription (pc : nat)
| AddIceCandidate (pc : nat) (candidate : jsval)
| ClosePeer (pc : nat)
| StopTrack (track : nat)
| OpenSocket (sock : nat) (streamId : string)
| DisconnectSocket (sock : nat)
| Emit (sock : nat) (envelope : Envelope)
| SetSrcObject (stream : nat).

(** What the provider owns: the reducer's state and the three refs, next to
    the record of what was done to the outside. *)
Record World := {
  store : State;
  socketRef : option Socket;
  peerConnectionsRef : gmap string PeerConnection;
  localVideoRef : bool;
  fresh : nat;
  trace : list Effect;
  console : list string
}.

Definition initialWorld : World := {|
  store := initialState;
  socketRef := None;
  peerConnectionsRef := ∅;
  localVideoRef := false;
  fresh := 0;
  trace := [];
  console := []
|}.

Definition set_store (f : State → State) (w : World) : World :=
  {| store := f (store w); socketRef := socketRef w;
     peerConnectionsRef := peerConnectionsRef w; localVideoRef := localVideoRef w;
     fresh := fresh w; trace := trace w; console := console w |}.

Definition set_socketRef (s : option Socket) (w : World) : World :=
  {| store := store w; socketRef := s;
     peerConnectionsRef := peerConnectionsRef w; localVideoRef := localVideoRef w;
     fresh := fresh w; trace := trace w; console := console w |}.

Definition set_peers (f : gmap string PeerConnection → gmap string PeerConnection)
    (w : World) : World :=
  {| store := store w; socketRef := socketRef w;
     peerConnectionsRef := f (peerConnectionsRef w); localVideoRef := localVideoRef w;
     fresh := fresh w; trace := trace w; console := console w |}.

Definition set_localVideoRef (b : bool) (w : World) : World :=
  {| store := store w; socketRef := socketRef w;
     peerConnectionsRef := peerConnectionsRef w; localVideoRef := b;
     fresh := fresh w; trace := trace w; console := console w |}.

Definition bump_fresh (w : World) : World :=
  {| store := store w; socketRef := socketRef w;
     peerConnectionsRef := peerConnectionsRef w; localVideoRef := localVideoRef w;
     fresh := S (fresh w); trace := trace w; console := console w |}.

Definition record_effect (e : Effect) (w : World) : World :=
  {| store := store w; socketRef := socketRef w;
     peerConnectionsRef := peerConnectionsRef w; localVideoRef := localVideoRef w;
     fresh := fresh w; trace := trace w ++ [e]; console := console w |}.

Definition record_effects (es : list Effect) (w : World) : World :=
  {| store := store w; socketRef := socketRef w;
     peerConnectionsRef := peerConnectionsRef w; localVideoRef := localVideoRef w;
     fresh := fresh w; trace := trace w ++ es; console := console w |}.

Definition record_console (line : string) (w : World) : World :=
  {| store := store w; socketRef := socketRef w;
     peerConnectionsRef := peerConnectionsRef w; localVideoRef := localVideoRef w;
     fresh := fresh w; trace := trace w; console := console w ++ [line] |}.

(** ** Handlers as computations that may throw *)

Inductive Res (A : Type) :=
| Ok (a : A)
| Thrown.
Arguments Ok {A} a.
Arguments Thrown {A}.

Definition M (A : Type) : Type := World → Res A * World.

Definition run {A} (m : M A) (w : World) : Res A * World := m w.
Definition exec {A} (m : M A) (w : World) : World := (m w).2.

Global Instance M_ret : MRet M := λ A a w, (Ok a, w).
Global Instance M_bind : MBind M := λ A B f m w,
  match m w with
  | (Ok a, w') => f a w'
  | (Thrown, w') => (Thrown, w')
  end.

Definition throw {A} : M A := λ w, (Thrown, w).

(** [try { body } catch { handler }] *)
Definition try_catch {A} (body handler : M A) : M A := λ w,
  match body w with
  | (Ok a, w') => (Ok a, w')
  | (Thrown, w') => handler w'
  end.

Definition update (f : World → World) : M unit := λ w, (Ok (), f w).
Definition read {A} (f : World → A) : M A := λ w, (Ok (f w), w).

Definition dispatch (action : Action) : M unit :=
  update (set_store (λ s, webrtcReducer s action)).

Definition perform (e : Effect) : M unit := update (record_effect e).
Definition console_log (line : string) : M unit := update (record_console line).
Definition console_error (line : string) : M unit := update (record_console line).

Definition new_id : M nat := λ w, (Ok (fresh w), bump_fresh w).

(** [if (flag) { body }] *)
Definition when_set (flag : bool) (body : M unit) : M unit :=
  if flag then body else mret ().

(** [items.forEach(f)] *)
Fixpoint forEach {A} (items : list A) (f : A → M unit) : M unit :=
  match items with
  | [] => mret ()
  | x :: rest => f x ;; forEach rest f
  end.

(** ** Inbound envelopes *)

Record Message := {
  in_type : string;
  sender_id : option string;
  in_data : jsval
}.

(** What arrives on the socket: text that [JSON.parse] rejects (or a value
    without properties), or an envelope. *)
Inductive Incoming :=
| Garbled
| Parsed (m : Message).

Inductive RTCPeerConnectionState :=
| PcNew | PcConnecting | PcConnected | PcDisconnected | PcFailed | PcClosed.

Definition pc_state_name (s : RTCPeerConnectionState) : string :=
  match s with
  | PcNew => "new"
  | PcConnecting => "connecting"
  | PcConnected => "connected"
  | PcDisconnected => "disconnected"
  | PcFailed => "failed"
  | PcClosed => "closed"
  end.

(** ** The registry object

    [peerConnectionsRef.current] is a plain object: reading a key it does not
    own falls through to [Object.prototype], whose properties are truthy but
    are not peer connections. *)

Definition object_prototype_keys : list string :=
  [ "constructor"; "hasOwnProperty"; "isPrototypeOf"; "propertyIsEnumerable";
    "toLocaleString"; "toString"; "valueOf"; "__proto__";
    "__defineGetter__"; "__defineSetter__"; "__lookupGetter__"; "__lookupSetter__" ].

Definition inherited_key (k : string) : bool :=
  bool_decide (k ∈ object_prototype_keys).

Inductive Slot :=
| Own (pc : PeerConnection)
| Inherited
| Absent.

Definition registry_get (peers : gmap string PeerConnection) (userId : option string) : Slot :=
  match peers !! prop_key userId with
  | Some pc => Own pc
  | None => if inherited_key (prop_key userId) then Inherited else Absent
  end.

(** *** The order of the keys of an object

    A key is an array index when it is the canonical decimal numeral of an
    integer from 0 to 2^32 - 2. *)

Definition digit_of (a : Ascii.ascii) : option N :=
  let n := Ascii.N_of_ascii a in
  if (N.leb 48 n && N.leb n 57)%bool then Some (n - 48)%N else None.

Fixpoint digits_value (acc : N) (s : string) : option N :=
  match s with
  | EmptyString => Some acc
  | String a rest =>
      match digit_of a with
      | Some d => digits_value (acc * 10 + d)%N rest
      | None => None
      end
  end.

Definition array_index (key : string) : option N :=
  match key with
  | EmptyString => None
  | String a rest =>
      if (Ascii.eqb a (Ascii.ascii_of_N 48) && negb (String.eqb rest ""))%bool then None
      else
        match digits_value 0 key with
        | Some n => if N.ltb n 4294967295 then Some n else None
        | None => None
        end
  end.

Fixpoint insert_sorted {A} (rank : A → N) (x : A) (l : list A) : list A :=
  match l with
  | [] => [x]
  | y :: rest =>
      if N.leb (rank x) (rank y) then x :: l else y :: insert_sorted rank x rest
  end.

(** [l] in ascending order of [rank]. *)
Definition sort_by {A} (rank : A → N) (l : list A) : list A :=
  foldr (insert_sorted rank) [] l.

Section Provider.

(** The browser's verdict on a negotiation call, given what was done
    before: [true] when the call rejects. *)
Variable rejects : list Effect → Effect → bool.

Definition call (e : Effect) : M unit := λ w,
  if rejects (trace w) e then (Thrown, w) else (Ok (), record_effect e w).

(** *** connectWebSocket (lines 94-124) *)

Definition connectWebSocket (streamId : string) : M Socket :=
  old ← read socketRef;
  match old with
  | Some s => perform (DisconnectSocket (sock_id s))
  | None => mret ()
  end;;
  n ← new_id;
  perform (OpenSocket n streamId);;
  let s := {| sock_id := n; sock_streamId := streamId |} in
  update (set_socketRef (Some s));;
  mret s.

Definition on_connect (s : Socket) : M unit :=
  console_log "WebSocket connected";;
  dispatch (SET_CONNECTED true);;
  dispatch (SET_CURRENT_STREAM (Some (sock_streamId s))).

Definition on_disconnect : M unit :=
  console_log "WebSocket disconnected";;
  dispatch (SET_CONNECTED false).

(** *** cleanupPeerConnection (lines 383-389) *)

Definition cleanupPeerConnection (userId : option string) : M unit :=
  peers ← read peerConnectionsRef;
  match registry_get peers userId with
  | Own pc =>
      perform (ClosePeer (pc_id pc));;
      update (set_peers (delete (prop_key userId)));;
      dispatch (REMOVE_REMOTE_STREAM userId)
  | Inherited => throw
  | Absent => mret ()
  end.

(** *** createPeerConnection (lines 169-212)

    [state] is the state of the render whose callback this is.  The result
    is the registry's slot for [userId]: the peer connection found or made,
    or the inherited property. *)

Definition createPeerConnection (state : State) (userId : option string) : M Slot :=
  peers ← read peerConnectionsRef;
  match registry_get peers userId with
  | Own pc => mret (Own pc)
  | Inherited => mret Inherited
  | Absent =>
      n ← new_id;
      call (NewPeerConnection n);;
      let pc := {| pc_id := n; pc_userId := userId;
                   pc_streamId := currentStreamId state |} in
      update (set_peers (insert (prop_key userId) pc));;
      mret (Own pc)
  end.

(** A method call on what the registry returned. *)
Definition as_peer (slot : Slot) : M PeerConnection :=
  match slot with
  | Own pc => mret pc
  | _ => throw
  end.

Definition onicecandidate (pc : PeerConnection) (candidate : option jsval) : M unit :=
  sock ← read socketRef;
  match candidate, sock with
  | Some c, Some s =>
      perform (Emit (sock_id s)
        {| type := "ice_candidate"; data := DCandidate c;
           target_id := pc_userId pc; stream_id := pc_streamId pc |})
  | _, _ => mret ()
  end.

Definition ontrack (pc : PeerConnection) (streams : list nat) : M unit :=
  console_log "Received remote track:";;
  dispatch (ADD_REMOTE_STREAM (pc_userId pc) (head streams)).

Definition onconnectionstatechange (pc : PeerConnection)
    (connectionState : RTCPeerConnectionState) : M unit :=
  console_log "Connection state for";;
  dispatch (SET_CONNECTION_STATE (pc_state_name connectionState));;
  match connectionState with
  | PcFailed | PcClosed => cleanupPeerConnection (pc_userId pc)
  | _ => mret ()
  end.

(** *** handleRemoteOffer (lines 215-243) *)

Definition handleRemoteOffer (state : State) (message : Message) : M unit :=
  try_catch
    (slot ← createPeerConnection state (sender_id message);
     peerConnection ← as_peer slot;
     call (SetRemoteDescription (pc_id peerConnection) (in_data message));;
     match localStream state with
     | Some stream =>
         forEach (getTracks stream) (λ track,
           call (AddTrack (pc_id peerConnection) track (ms_id stream)))
     | None => mret ()
     end;;
     call (CreateAnswer (pc_id peerConnection));;
     call (SetLocalDescription (pc_id peerConnection));;
     sock ← read socketRef;
     match sock with
     | Some s =>
         perform (Emit (sock_id s)
           {| type := "answer"; data := DAnswer (pc_id peerConnection);
              target_id := sender_id message;
              stream_id := currentStreamId state |})
     | None => mret ()
     end)
    (console_error "Error handling remote offer:").

(** *** handleRemoteAnswer (lines 246-257) *)

Definition handleRemoteAnswer (message : Message) : M unit :=
  try_catch
    (peers ← read peerConnectionsRef;
     match registry_get peers (sender_id message) with
     | Own pc => call (SetRemoteDescription (pc_id pc) (in_data message))
     | Inherited => throw
     | Absent => mret ()
     end)
    (console_error "Error handling remote answer:").

(** *** handleRemoteIceCandidate (lines 260-271) *)

Definition handleRemoteIceCandidate (message : Message) : M unit :=
  try_catch
    (peers ← read peerConnectionsRef;
     match registry_get peers (sender_id message) with
     | Own pc => call (AddIceCandidate (pc_id pc) (in_data message))
     | Inherited => throw
     | Absent => mret ()
     end)
    (console_error "Error handling remote ICE candidate:").

(** *** initializeCamera (lines 274-289)

    [camera] is what [getUserMedia] resolves to, [None] when it rejects. *)

Definition getUserMedia (camera : option MediaStream) : M MediaStream :=
  match camera with
  | Some stream => mret stream
  | None => throw
  end.

Definition initializeCamera (camera : option MediaStream) : M MediaStream :=
  try_catch
    (stream ← getUserMedia camera;
     dispatch (SET_LOCAL_STREAM (Some stream));;
     video ← read localVideoRef;
     when_set video (perform (SetSrcObject (ms_id stream)));;
     mret stream)
    (console_error "Error accessing camera:";;
     dispatch (SET_ERROR (VStr "Failed to access camera/microphone"));;
     throw).

(** *** startStreaming (lines 292-311) *)

Definition startStreaming (streamId : string) (camera : option MediaStream)
    : M MediaStream :=
  try_catch
    (dispatch (SET_ERROR VNull);;
     stream ← initializeCamera camera;
     connectWebSocket streamId;;
     dispatch (SET_STREAMING true);;
     dispatch (SET_CONNECTION_STATE "connecting");;
     mret stream)
    (console_error "Error starting stream:";;
     dispatch (SET_ERROR (VStr "Failed to start streaming"));;
     throw).

(** *** joinStream (lines 314-330) *)

Definition joinStream (streamId : string) : M unit :=
  try_catch
    (dispatch (SET_ERROR VNull);;
     dispatch CLEAR_CHAT;;
     connectWebSocket streamId;;
     dispatch (SET_VIEWING true);;
     dispatch (SET_CONNECTION_STATE "connecting"))
    (console_error "Error joining stream:";;
     dispatch (SET_ERROR (VStr "Failed to join stream"));;
     throw).

(** *** sendChatMessage (lines 333-341) *)

Definition sendChatMessage (state : State) (message : jsstring) : M unit :=
  sock ← read socketRef;
  match sock with
  | Some s =>
      if isConnected state then
        perform (Emit (sock_id s)
          {| type := "chat_message"; data := DChat (trim message);
             target_id := None; stream_id := currentStreamId state |})
      else mret ()
  | None => mret ()
  end.

(** [Object.values(peerConnectionsRef.current)].  The own keys that are
    array indices come first, in ascending numeric order, then the other
    keys in the order of their creation.  A peer connection enters the
    registry when it is created (line 175) and connections are numbered as
    they are created, so the keys were created in the order of the numbers
    of their connections. *)
Definition registry_values (peers : gmap string PeerConnection) : list PeerConnection :=
  (sort_by (λ entry, default 0%N (array_index entry.1))
     (filter (λ entry, is_Some (array_index entry.1)) (map_to_list peers))
   ++ sort_by (λ entry, N.of_nat (pc_id entry.2))
        (filter (λ entry, array_index entry.1 = None) (map_to_list peers))).*2.

Definition close_all_peers : M unit :=
  peers ← read peerConnectionsRef;
  forEach (registry_values peers) (λ pc, perform (ClosePeer (pc_id pc)));;
  update (set_peers (λ _, ∅)).

Definition disconnect_socket : M unit :=
  sock ← read socketRef;
  match sock with
  | Some s => perform (DisconnectSocket (sock_id s))
  | None => mret ()
  end.

(** *** stopStreaming (lines 344-362) *)

Definition stopStreaming (state : State) : M unit :=
  match localStream state with
  | Some stream => forEach (getTracks stream) (λ track, perform (StopTrack track))
  | None => mret ()
  end;;
  close_all_peers;;
  disconnect_socket;;
  dispatch RESET_STATE.

(** *** stopViewing (lines 365-380) *)

Definition stopViewing : M unit :=
  close_all_peers;;
  disconnect_socket;;
  dispatch (SET_VIEWING false);;
  dispatch (SET_CONNECTED false);;
  dispatch (SET_CONNECTION_STATE "disconnected").

(** *** handleWebSocketMessage (lines 127-166)

    [state] is the state of the render whose handlers the router calls. *)

Definition parse (message : Incoming) : M Message :=
  match message with
  | Parsed m => mret m
  | Garbled => throw
  end.

Definition property (v : jsval) (k : string) : M jsval :=
  match get_prop v k with
  | Some x => mret x
  | None => throw
  end.

Definition handleWebSocketMessage (state : State) (message : Incoming) : M unit :=
  try_catch
    (data ← parse message;
     if String.eqb (in_type data) "offer" then handleRemoteOffer state data
     else if String.eqb (in_type data) "answer" then handleRemoteAnswer data
     else if String.eqb (in_type data) "ice_candidate" then handleRemoteIceCandidate data
     else if String.eqb (in_type data) "chat_message" then
       dispatch (ADD_CHAT_MESSAGE (in_data data))
     else if String.eqb (in_type data) "user_joined" then
       property (in_data data) "user_id";; console_log "User joined:"
     else if String.eqb (in_type data) "user_left" then
       property (in_data data) "user_id";; console_log "User left:"
     else if String.eqb (in_type data) "stream_started" then
       console_log "Stream started"
     else if String.eqb (in_type data) "stream_ended" then
       console_log "Stream ended";; stopViewing
     else if String.eqb (in_type data) "error" then
       payload ← property (in_data data) "message";
       dispatch (SET_ERROR payload)
     else console_log "Unknown message type:")
    (console_error "Error handling WebSocket message:").

(** ** Which render a callback belongs to

    [handleWebSocketMessage] is memoised with an empty dependency list, so
    the socket always calls the callback of the mount render; the handlers
    it names are those of that render, whose [state] is the reducer's
    initial state.  The callbacks handed to the components through the
    context value list the state they read among their dependencies and
    see the state of the latest render.  Both facts are derived from the
    dependency lists in the section on memoised callbacks below. *)

Definition mountState : State := initialState.

(** ** Events *)

Inductive Event :=
| StartStreaming (streamId : string) (camera : option MediaStream)
| JoinStream (streamId : string)
| StopStreaming
| StopViewing
| SendChatMessage (text : jsstring)
| InitializeCamera (camera : option MediaStream)
| VideoRef (attached : bool)
| SocketConnect
| SocketDisconnect
| SocketMessage (message : Incoming)
| PeerIceCandidate (key : string) (candidate : option jsval)
| PeerTrack (key : string) (streams : list nat)
| PeerConnectionState (key : string) (s : RTCPeerConnectionState).

Definition on_socket (f : Socket → M unit) : M unit :=
  sock ← read socketRef;
  match sock with
  | Some s => f s
  | None => mret ()
  end.

Definition on_peer (key : string) (f : PeerConnection → M unit) : M unit :=
  peers ← read peerConnectionsRef;
  match peers !! key with
  | Some pc => f pc
  | None => mret ()
  end.

Definition with_render {A} (f : State → M A) : M A := λ w, f (store w) w.

(** One event, handled to completion.  Socket events need a socket, peer
    events a peer connection of the registry.  The socket's 'connect' and
    'disconnect' notifications are events of their own, whatever caused
    them. *)
Definition handle (e : Event) : World → World :=
  match e with
  | StartStreaming streamId camera => exec (startStreaming streamId camera)
  | JoinStream streamId => exec (joinStream streamId)
  | StopStreaming => exec (with_render stopStreaming)
  | StopViewing => exec stopViewing
  | SendChatMessage text => exec (with_render (λ state, sendChatMessage state text))
  | InitializeCamera camera => exec (initializeCamera camera)
  | VideoRef attached => set_localVideoRef attached
  | SocketConnect => exec (on_socket on_connect)
  | SocketDisconnect => exec (on_socket (λ _, on_disconnect))
  | SocketMessage message =>
      exec (on_socket (λ _, handleWebSocketMessage mountState message))
  | PeerIceCandidate key candidate =>
      exec (on_peer key (λ pc, onicecandidate pc candidate))
  | PeerTrack key streams => exec (on_peer key (λ pc, ontrack pc streams))
  | PeerConnectionState key s =>
      exec (on_peer key (λ pc, onconnectionstatechange pc s))
  end.

Definition handle_all (events : list Event) (w : World) : World :=
  foldl (λ w e, handle e w) w events.

Definition reachable (w : World) : Prop :=
  ∃ events, w = handle_all events initialWorld.

End Provider.

(** ** Sample inputs *)

(** A browser that accepts every call. *)
Definition accepts_all : list Effect → Effect → bool := λ _ _, false.

Definition append_all (messages : list jsval) (state : State) : State :=
  foldl (λ s m, webrtcReducer s (ADD_CHAT_MESSAGE m)) state messages.

Definition camera1 : MediaStream := {| ms_id := 10; getTracks := [11; 12] |}.
Definition camera2 : MediaStream := {| ms_id := 20; getTracks := [21; 22] |}.

Definition offer_from (sender : string) : Incoming :=
  Parsed {| in_type := "offer"; sender_id := Some sender;
            in_data := VObj [("type", VStr "offer"); ("sdp", VStr "v=0")] |}.

Definition stream_ended : Incoming :=
  Parsed {| in_type := "stream_ended"; sender_id := None; in_data := VObj [] |}.

(** A streamer on session "s1" whose socket has connected. *)
Definition streaming_s1 : World :=
  handle_all accepts_all [StartStreaming "s1" (Some camera1); SocketConnect] initialWorld.

(** A viewer of session "s1" that negotiated with "P" and received media. *)
Definition viewing_s1 : World :=
  handle_all accepts_all
    [JoinStream "s1"; SocketConnect; SocketMessage (offer_from "P"); PeerTrack "P" [7]]
    initialWorld.

(** The calls [close_all_peers] and [disconnect_socket] make. *)
Definition closing_calls (w : World) : list Effect :=
  ((λ pc, ClosePeer (pc_id pc)) <$> registry_values (peerConnectionsRef w))
  ++ match socketRef w with
     | Some s => [DisconnectSocket (sock_id s)]
     | None => []
     end.


(** ** Invariants of computations *)

(** [m] keeps [P], whether it returns or throws. *)
Definition preserves (P : World → Prop) {A} (m : M A) : Prop :=
  ∀ w, P w → P (m w).2.

(** The values the reducer can hold in [connectionState]: those the session
    API writes and those a peer connection reports. *)
Definition api_connection_states : list string := ["disconnected"; "connecting"].

Definition peer_connection_states : list string :=
  pc_state_name <$> [PcNew; PcConnecting; PcConnected; PcDisconnected; PcFailed; PcClosed].

Definition spec_connection_states : list string :=
  ["disconnected"; "connecting"; "connected"; "streaming"; "viewing"].

Definition connection_state_ok (w : World) : Prop :=
  connectionState (store w) ∈ api_connection_states ++ peer_connection_states.

(** [isConnected] is only ever set while a socket is held. *)
Definition connected_has_socket (w : World) : Prop :=
  socketRef w = None → isConnected (store w) = false.

(** The calls [handleRemoteOffer] makes on peer connection [pc] and socket
    [sock] when none of them rejects. *)
Definition negotiation_calls (state : State) (message : Message) (pc sock : nat)
    : list Effect :=
  [SetRemoteDescription pc (in_data message)]
  ++ from_option (λ stream, (λ track, AddTrack pc track (ms_id stream)) <$> getTracks stream)
       [] (localStream state)
  ++ [CreateAnswer pc; SetLocalDescription pc;
      Emit sock {| type := "answer"; data := DAnswer pc;
                   target_id := sender_id message;
                   stream_id := currentStreamId state |}].

(** A viewer of "s1" whose peer connection to "P" then failed. *)
Definition failed_peer_events : list Event :=
  [JoinStream "s1"; SocketConnect; SocketMessage (offer_from "P");
   PeerConnectionState "P" PcFailed].

(** One hundred and fifty chat payloads, numbered in arrival order. *)
Definition numbered_messages : list jsval := (λ n, VNum (Z.of_nat n)) <$> seq 0 150.

(** ** Memoised callbacks

    Every render of the provider builds its callbacks anew, each closing over
    the bindings of that render; [useCallback] then hands out the callback of
    an earlier render for as long as the dependency values are unchanged.  A
    callback is identified here by the number of the render that built it;
    render 0 is the mount. *)

Definition useCallback {D} `{EqDecision D} (memo : option (nat * D)) (render : nat)
    (deps : D) : nat * D :=
  match memo with
  | Some (built, old) => if decide (old = deps) then (built, old) else (render, deps)
  | None => (render, deps)
  end.

(** The callbacks bound in one render, each with its dependency values
    (lines 166, 212, 243, 341 and 362). *)
Record Callbacks := {
  cb_handleWebSocketMessage : nat * ();
  cb_createPeerConnection : nat * option string;
  cb_handleRemoteOffer : nat * (nat * option MediaStream * option string);
  cb_sendChatMessage : nat * (bool * option string);
  cb_stopStreaming : nat * option MediaStream
}.

Definition render_callbacks (previous : option Callbacks) (n : nat) (state : State)
    : Callbacks :=
  let createPeerConnection :=
    useCallback (cb_createPeerConnection <$> previous) n (currentStreamId state) in
  {| cb_handleWebSocketMessage :=
       useCallback (cb_handleWebSocketMessage <$> previous) n ();
     cb_createPeerConnection := createPeerConnection;
     cb_handleRemoteOffer :=
       useCallback (cb_handleRemoteOffer <$> previous) n
         (createPeerConnection.1, localStream state, currentStreamId state);
     cb_sendChatMessage :=
       useCallback (cb_sendChatMessage <$> previous) n
         (isConnected state, currentStreamId state);
     cb_stopStreaming :=
       useCallback (cb_stopStreaming <$> previous) n (localStream state) |}.

(** The callbacks of successive renders, from the states those renders saw. *)
Fixpoint renders (previous : option Callbacks) (n : nat) (states : list State)
    : list Callbacks :=
  match states with
  | [] => []
  | state :: later =>
      let callbacks := render_callbacks previous n state in
      callbacks :: renders (Some callbacks) (S n) later
  end.

Definition render_history (states : list State) : list Callbacks :=
  renders None 0 states.

(** The state seen by the [handleRemoteOffer] that the socket's listener
    reaches: the listener of render [i] calls that render's
    [handleWebSocketMessage], which calls the [handleRemoteOffer] bound in
    the render it was built in. *)
Definition router_offer_state (states : list State) (i : nat) : option State :=
  listener ← render_history states !! i;
  router ← render_history states !! (cb_handleWebSocketMessage listener).1;
  states !! (cb_handleRemoteOffer router).1.

(** What holds of the callbacks of a render that saw [state], [states] being
    the states of all renders so far. *)
Definition callbacks_sound (states : list State) (callbacks : Callbacks) (state : State)
    : Prop :=
  (cb_handleWebSocketMessage callbacks).1 = 0
  ∧ (cb_sendChatMessage callbacks).2 = (isConnected state, currentStreamId state)
  ∧ (∃ seen, states !! (cb_sendChatMessage callbacks).1 = Some seen
       ∧ isConnected seen = isConnected state
       ∧ currentStreamId seen = currentStreamId state)
  ∧ (cb_stopStreaming callbacks).2 = localStream state
  ∧ (∃ seen, states !! (cb_stopStreaming callbacks).1 = Some seen
       ∧ localStream seen = localStream state).


(** ** The registry of a reachable world *)

(** Every peer connection sits under the key of the user it was created
    for, was numbered before the next fresh number, shares its number with
    no other entry, and closes over the stream id of the mount render. *)
Definition registry_ok (w : World) : Prop :=
  (∀ key pc, peerConnectionsRef w !! key = Some pc →
     prop_key (pc_userId pc) = key
     ∧ pc_id pc < fresh w
     ∧ pc_streamId pc = None)
  ∧ (∀ key1 key2 pc1 pc2,
       peerConnectionsRef w !! key1 = Some pc1 →
       peerConnectionsRef w !! key2 = Some pc2 →
       pc_id pc1 = pc_id pc2 → key1 = key2).

(** The types the router acts on beyond writing to the console. *)
Definition acting_types : list string :=
  ["offer"; "answer"; "ice_candidate"; "chat_message"; "stream_ended"; "error"].

Definition chat_from (payload : jsval) : Incoming :=
  Parsed {| in_type := "chat_message"; sender_id := None; in_data := payload |}.

(** The [disconnect()] that [connectWebSocket] makes on the socket held. *)
Definition disconnect_held (w : World) : list Effect :=
  match socketRef w with
  | Some old => [DisconnectSocket (sock_id old)]
  | None => []
  end.

(** The assignment to the preview element, when one is mounted. *)
Definition preview_of (stream : MediaStream) (w : World) : list Effect :=
  if localVideoRef w then [SetSrcObject (ms_id stream)] else [].

(** A computation run for its effects, its result dropped. *)
Definition discard {A} (m : M A) : M unit := λ w,
  match m w with
  | (Ok _, w') => (Ok (), w')
  | (Thrown, w') => (Thrown, w')
  end.

(** The handler that [handle] runs for an event, with its outcome. *)
Definition handler (rejects : list Effect → Effect → bool) (e : Event) : M unit :=
  match e with
  | StartStreaming streamId camera => discard (startStreaming streamId camera)
  | JoinStream streamId => joinStream streamId
  | StopStreaming => with_render stopStreaming
  | StopViewing => stopViewing
  | SendChatMessage text => with_render (λ state, sendChatMessage state text)
  | InitializeCamera camera => discard (initializeCamera camera)
  | VideoRef attached => update (set_localVideoRef attached)
  | SocketConnect => on_socket on_connect
  | SocketDisconnect => on_socket (λ _, on_disconnect)
  | SocketMessage message =>
      on_socket (λ _, handleWebSocketMessage rejects mountState message)
  | PeerIceCandidate key candidate => on_peer key (λ pc, onicecandidate pc candidate)
  | PeerTrack key streams => on_peer key (λ pc, ontrack pc streams)
  | PeerConnectionState key s =>
      on_peer key (λ pc, onconnectionstatechange pc s)
  end.

(** A session that is marked connected knows its stream. *)
Definition connected_has_stream (w : World) : Prop :=
  isConnected (store w) = true → is_Some (currentStreamId (store w)).

(** ** The authentication context (frontend/src/contexts/AuthContext.js)

    The predicates the streaming components consult.  [user] is [None]
    while nobody is logged in. *)

Record User := {
  roles : option (list string);
  subscription_tier : option string;
  model_verification_status : option string
}.

(** hasRole (lines 155-157) *)
Definition hasRole (user : option User) (role : string) : bool :=
  match user with
  | Some u =>
      match roles u with
      | Some held => bool_decide (role ∈ held)
      | None => false
      end
  | None => false
  end.

Definition rolePermissions : list (string * list string) :=
  [ ("admin", ["manage_users"; "verify_models"; "manage_streams"; "view_analytics";
               "moderate_content"; "access_admin_panel"]);
    ("model", ["create_streams"; "receive_tips"; "access_private_streams";
               "upload_premium_content"; "view_earnings"]);
    ("premium_user", ["access_premium_streams"; "send_tips"; "upload_large_files";
                      "priority_chat"]);
    ("user", ["view_public_streams"; "send_chat_messages"; "upload_basic_files"]) ].

Fixpoint table_get (role : string) (table : list (string * list string))
    : option (list string) :=
  match table with
  | [] => None
  | (name, permissions) :: rest =>
      if String.eqb role name then Some permissions else table_get role rest
  end.

(** The loop of hasPermission (lines 169-173).  [rolePermissions[role]] is a
    list for the four roles of the table, [undefined] for other names, and
    for the names of [Object.prototype] an object without [includes], on
    which the call throws ([None]). *)
Fixpoint permitted_by (held : list string) (permission : string) : option bool :=
  match held with
  | [] => Some false
  | role :: rest =>
      match table_get role rolePermissions with
      | Some permissions =>
          if bool_decide (permission ∈ permissions) then Some true
          else permitted_by rest permission
      | None =>
          if inherited_key role then None else permitted_by rest permission
      end
  end.

(** hasPermission (lines 159-176) *)
Definition hasPermission (user : option User) (permission : string) : option bool :=
  match user with
  | Some u =>
      match roles u with
      | Some held => permitted_by held permission
      | None => Some false
      end
  | None => Some false
  end.

Definition tier_is (u : User) (tier : string) : bool :=
  bool_decide (subscription_tier u = Some tier).

(** canAccessStream (lines 178-193) *)
Definition canAccessStream (user : option User) (streamType : string) : bool :=
  match user with
  | None => String.eqb streamType "public"
  | Some u =>
      if hasRole user "admin" then true
      else if String.eqb streamType "public" then true
      else if String.eqb streamType "private" then
        tier_is u "premium" || tier_is u "vip" || hasRole user "model"
      else if String.eqb streamType "premium" then
        tier_is u "premium" || tier_is u "vip"
      else false
  end.

(** isVerifiedModel (lines 195-197) *)
Definition isVerifiedModel (user : option User) : bool :=
  hasRole user "model"
  && match user with
     | Some u => bool_decide (model_verification_status u = Some "approved")
     | None => false
     end.

(** canCreateStreams (lines 199-201) *)
Definition canCreateStreams (user : option User) : bool :=
  isVerifiedModel user || hasRole user "admin".

(** A verified model without a paid tier, and an administrator. *)
Definition model_user : User :=
  {| roles := Some ["user"; "model"]; subscription_tier := Some "free";
     model_verification_status := Some "approved" |}.

Definition admin_user : User :=
  {| roles := Some ["admin"]; subscription_tier := None;
     model_verification_status := None |}.

(** ** The chat forms of the components

    handleSendChat of StreamViewer.js (lines 96-102) and LiveStreaming.js
    (lines 198-204): [active] is the [isViewing], respectively [isStreaming],
    of the state the component rendered with, [chatMessage] the text of the
    input; the result is the text the input holds afterwards. *)
Definition handleSendChat (active : bool) (state : State) (chatMessage : jsstring)
    : M jsstring :=
  match trim chatMessage with
  | _ :: _ =>
      if active then sendChatMessage state chatMessage ;; mret []
      else mret chatMessage
  | [] => mret chatMessage
  end.

Definition viewer_handleSendChat (state : State) (chatMessage : jsstring) : M jsstring :=
  handleSendChat (isViewing state) state chatMessage.

Definition streamer_handleSendChat (state : State) (chatMessage : jsstring) : M jsstring :=
  handleSendChat (isStreaming state) state chatMessage.

(** ** What the trace accounts for *)

(** Every socket opened is the one held or has been disconnected. *)
Definition sockets_accounted (w : World) : Prop :=
  ∀ n streamId, OpenSocket n streamId ∈ trace w →
    socketRef w = Some {| sock_id := n; sock_streamId := streamId |}
    ∨ DisconnectSocket n ∈ trace w.

(** Every peer connection created is in the registry or has been closed. *)
Definition peers_accounted (w : World) : Prop :=
  ∀ n, NewPeerConnection n ∈ trace w →
    (∃ key pc, peerConnectionsRef w !! key = Some pc ∧ pc_id pc = n)
    ∨ ClosePeer n ∈ trace w.

(** ** Further sample inputs *)

(** A browser that rejects every session description. *)
Definition rejects_descriptions : list Effect → Effect → bool :=
  λ _ e, match e with SetRemoteDescription _ _ => true | _ => false end.

(** The peer connection that [viewing_s1] holds for "P". *)
Definition peer_P : PeerConnection :=
  {| pc_id := 1; pc_userId := Some "P"; pc_streamId := None |}.

Definition joined_events : list Event :=
  [JoinStream "s1"; SocketConnect; SocketMessage (offer_from "P"); PeerTrack "P" [7]].

Definition presence_notice : Incoming :=
  Parsed {| in_type := "user_joined"; sender_id := None; in_data := VNull |}.

(** Three renders: the mount, then one after the socket connected, then one
    after the camera stream was stored. *)
Definition three_renders : list State :=
  [ initialState;
    webrtcReducer (webrtcReducer initialState (SET_CONNECTED true))
      (SET_CURRENT_STREAM (Some "s1"));
    webrtcReducer
      (webrtcReducer (webrtcReducer initialState (SET_CONNECTED true))
         (SET_CURRENT_STREAM (Some "s1")))
      (SET_LOCAL_STREAM (Some camera1)) ].

(** No entry of the registry is filed under the name of a property that
    every object inherits from [Object.prototype]. *)
Definition own_keys_only (w : World) : Prop :=
  ∀ key pc, peerConnectionsRef w !! key = Some pc → inherited_key key = false.
(** * Properties *)

(** ** The order of [Object.values] *)

Lemma insert_sorted_perm {A} (rank : A → N) (x : A) (l : list A) :
  insert_sorted rank x l ≡ₚ x :: l.
Proof.
  induction l as [|y rest IH]; simpl; [reflexivity|].
  destruct (N.leb (rank x) (rank y)); [reflexivity|].
  rewrite IH. apply Permutation_swap.
Qed.

Lemma sort_by_perm {A} (rank : A → N) (l : list A) : sort_by rank l ≡ₚ l.
Proof.
  induction l as [|x rest IH]; simpl; [reflexivity|].
  rewrite insert_sorted_perm. rewrite IH. reflexivity.
Qed.

Lemma insert_sorted_ascending {A} (rank : A → N) (x : A) (l : list A) :
  Sorted (λ a b, (rank a <= rank b)%N) l →
  Sorted (λ a b, (rank a <= rank b)%N) (insert_sorted rank x l).
Proof.
  induction 1 as [|y rest Hrest IH Hhd]; simpl.
  - repeat constructor.
  - destruct (N.leb_spec (rank x) (rank y)) as [Hle|Hlt].
    + repeat constructor; assumption.
    + constructor; [exact IH|].
      destruct Hhd as [|z rest' Hyz]; simpl.
      * constructor. lia.
      * destruct (N.leb (rank x) (rank z)); constructor; [lia|exact Hyz].
Qed.

(** [sort_by] lists its argument in ascending order of the rank. *)
Lemma sort_by_ascending {A} (rank : A → N) (l : list A) :
  Sorted (λ a b, (rank a <= rank b)%N) (sort_by rank l).
Proof.
  induction l as [|x rest IH]; simpl; [constructor|].
  apply insert_sorted_ascending, IH.
Qed.

Lemma filter_array_index_perm {A} (l : list (string * A)) :
  filter (λ entry, is_Some (array_index entry.1)) l
  ++ filter (λ entry, array_index entry.1 = None) l ≡ₚ l.
Proof.
  induction l as [|[key x] rest IH]; [reflexivity|].
  rewrite !filter_cons. simpl.
  destruct (array_index key) as [n|] eqn:Hkey.
  - rewrite decide_True by eauto. rewrite decide_False by discriminate.
    simpl. rewrite IH. reflexivity.
  - rewrite decide_False by (intros [? ?]; discriminate).
    rewrite decide_True by reflexivity.
    rewrite <- Permutation_middle, IH. reflexivity.
Qed.

(** [Object.values] lists every own value once, whatever the order. *)
Lemma registry_values_perm (peers : gmap string PeerConnection) :
  registry_values peers ≡ₚ (map_to_list peers).*2.
Proof.
  unfold registry_values. rewrite !sort_by_perm, filter_array_index_perm.
  reflexivity.
Qed.

Lemma registry_values_elem (peers : gmap string PeerConnection) (pc : PeerConnection) :
  pc ∈ registry_values peers ↔ ∃ key, peers !! key = Some pc.
Proof.
  rewrite registry_values_perm, list_elem_of_fmap. split.
  - intros [[key pc'] [-> Hin]]. exists key. apply elem_of_map_to_list, Hin.
  - intros [key Hpc]. exists (key, pc). split; [reflexivity|].
    apply elem_of_map_to_list, Hpc.
Qed.

Lemma registry_values_empty : registry_values (∅ : gmap string PeerConnection) = [].
Proof. unfold registry_values. rewrite map_to_list_empty. reflexivity. Qed.

(** Integer-like keys come first, in ascending numeric order; the others
    follow in the order in which their connections were created. *)
Example registry_values_order :
  let pc n user := {| pc_id := n; pc_userId := Some user; pc_streamId := None |} in
  pc_id <$> registry_values
    (<["2" := pc 4 "2"]> (<["10" := pc 3 "10"]> (<["a" := pc 2 "a"]>
       (<["b" := pc 1 "b"]> (<["07" := pc 0 "07"]> ∅)))))
  = [4; 3; 0; 1; 2].
Proof. vm_compute. reflexivity. Qed.

Lemma digit_of_bound (a : Ascii.ascii) (d : N) : digit_of a = Some d → (d < 10)%N.
Proof.
  unfold digit_of. destruct (N.leb_spec 48 (Ascii.N_of_ascii a)); simpl; [|discriminate].
  destruct (N.leb_spec (Ascii.N_of_ascii a) 57); [|discriminate].
  intros [= <-]. lia.
Qed.

Lemma digit_of_inj (a b : Ascii.ascii) (d : N) :
  digit_of a = Some d → digit_of b = Some d → a = b.
Proof.
  unfold digit_of.
  destruct (N.leb_spec 48 (Ascii.N_of_ascii a)); simpl; [|discriminate].
  destruct (N.leb_spec (Ascii.N_of_ascii a) 57); [|discriminate].
  destruct (N.leb_spec 48 (Ascii.N_of_ascii b)); simpl; [|discriminate].
  destruct (N.leb_spec (Ascii.N_of_ascii b) 57); [|discriminate].
  intros [= <-] [= Heq].
  rewrite <- (Ascii.ascii_N_embedding a), <- (Ascii.ascii_N_embedding b).
  f_equal. lia.
Qed.

Lemma digits_value_bounds (s : string) (acc v : N) :
  digits_value acc s = Some v →
  (acc * 10 ^ N.of_nat (String.length s) <= v
   < (acc + 1) * 10 ^ N.of_nat (String.length s))%N.
Proof.
  revert acc. induction s as [|a rest IH]; intros acc; simpl String.length.
  - intros [= <-]. simpl. lia.
  - cbn [digits_value]. destruct (digit_of a) as [d|] eqn:Hd; [|discriminate].
    intros Hv. apply IH in Hv. apply digit_of_bound in Hd.
    rewrite Nat2N.inj_succ, N.pow_succ_r'. nia.
Qed.

Lemma digits_value_inj (s1 s2 : string) (acc1 acc2 v : N) :
  String.length s1 = String.length s2 →
  digits_value acc1 s1 = Some v → digits_value acc2 s2 = Some v →
  acc1 = acc2 ∧ s1 = s2.
Proof.
  revert s2 acc1 acc2.
  induction s1 as [|a1 r1 IH]; intros [|a2 r2] acc1 acc2 Hlen; try discriminate.
  - intros [= <-] [= <-]. split; reflexivity.
  - cbn [digits_value].
    destruct (digit_of a1) as [d1|] eqn:Hd1; [|discriminate].
    destruct (digit_of a2) as [d2|] eqn:Hd2; [|discriminate].
    intros H1 H2. simpl in Hlen.
    destruct (IH r2 _ _ ltac:(lia) H1 H2) as [Hacc ->].
    pose proof (digit_of_bound _ _ Hd1). pose proof (digit_of_bound _ _ Hd2).
    assert (acc1 = acc2) as -> by lia. assert (d1 = d2) as -> by lia.
    split; [reflexivity|]. f_equal. exact (digit_of_inj _ _ _ Hd1 Hd2).
Qed.

(** What [array_index] accepts: a digit, then digits, the first one not 0
    unless it stands alone. *)
Lemma array_index_Some (key : string) (n : N) :
  array_index key = Some n →
  ∃ a rest d, key = String a rest ∧ digit_of a = Some d
    ∧ digits_value d rest = Some n ∧ (d = 0%N → rest = EmptyString).
Proof.
  destruct key as [|a rest]; [discriminate|]. unfold array_index.
  destruct (Ascii.eqb a (Ascii.ascii_of_N 48) && negb (String.eqb rest ""))%bool
    eqn:Hzero; [discriminate|].
  cbn [digits_value]. destruct (digit_of a) as [d|] eqn:Hd; [|discriminate].
  change (0 * 10 + d)%N with d. destruct (digits_value d rest) as [v|] eqn:Hv; [|discriminate].
  destruct (N.ltb v 4294967295%N); [|discriminate]. intros [= <-].
  exists a, rest, d. repeat split; try assumption.
  intros ->. apply andb_false_iff in Hzero as [Ha|Hrest].
  - exfalso. apply Ascii.eqb_neq in Ha. apply Ha.
    apply (digit_of_inj _ _ 0%N Hd). reflexivity.
  - apply negb_false_iff, String.eqb_eq in Hrest. exact Hrest.
Qed.

(** Two array indices with the same value are the same key. *)
Lemma array_index_inj (key1 key2 : string) (n : N) :
  array_index key1 = Some n → array_index key2 = Some n → key1 = key2.
Proof.
  intros H1 H2.
  apply array_index_Some in H1 as (a1 & r1 & d1 & -> & Hd1 & Hv1 & Hz1).
  apply array_index_Some in H2 as (a2 & r2 & d2 & -> & Hd2 & Hv2 & Hz2).
  pose proof (digits_value_bounds _ _ _ Hv1) as B1.
  pose proof (digits_value_bounds _ _ _ Hv2) as B2.
  pose proof (digit_of_bound _ _ Hd1). pose proof (digit_of_bound _ _ Hd2).
  assert (Hlen : String.length r1 = String.length r2).
  { destruct (decide (d1 = 0%N)) as [->|Hn1].
    - rewrite (Hz1 eq_refl) in *. simpl in B1, Hv1. injection Hv1 as <-.
      destruct (decide (d2 = 0%N)) as [->|Hn2]; [rewrite (Hz2 eq_refl); reflexivity|].
      exfalso.
      assert (0 < 10 ^ N.of_nat (String.length r2))%N by (apply N.neq_0_lt_0, N.pow_nonzero; lia).
      nia.
    - destruct (decide (d2 = 0%N)) as [->|Hn2].
      { exfalso. rewrite (Hz2 eq_refl) in *. simpl in B2, Hv2. injection Hv2 as <-.
        assert (0 < 10 ^ N.of_nat (String.length r1))%N by (apply N.neq_0_lt_0, N.pow_nonzero; lia).
        nia. }
      destruct (Nat.lt_trichotomy (String.length r1) (String.length r2)) as [Hlt|[Heq|Hgt]];
        [exfalso|exact Heq|exfalso].
      + assert (10 * 10 ^ N.of_nat (String.length r1) <= 10 ^ N.of_nat (String.length r2))%N.
        { rewrite <- N.pow_succ_r'. apply N.pow_le_mono_r; lia. }
        nia.
      + assert (10 * 10 ^ N.of_nat (String.length r2) <= 10 ^ N.of_nat (String.length r1))%N.
        { rewrite <- N.pow_succ_r'. apply N.pow_le_mono_r; lia. }
        nia. }
  destruct (digits_value_inj _ _ _ _ _ Hlen Hv1 Hv2) as [-> ->].
  f_equal. exact (digit_of_inj _ _ _ Hd1 Hd2).
Qed.

Lemma sorted_unique {A} (rank : A → N) (l1 l2 : list A) :
  Sorted (λ a b, (rank a <= rank b)%N) l1 →
  Sorted (λ a b, (rank a <= rank b)%N) l2 →
  l1 ≡ₚ l2 →
  (∀ x y, x ∈ l1 → y ∈ l1 → rank x = rank y → x = y) →
  l1 = l2.
Proof.
  intros S1 S2.
  assert (Htrans : Relations_1.Transitive (λ a b : A, (rank a <= rank b)%N)).
  { intros x y z ? ?. lia. }
  apply (Sorted_StronglySorted Htrans) in S1, S2.
  revert l2 S2. induction S1 as [|a l1 S1 IH Ha]; intros l2 S2 Hperm Hinj.
  - symmetry. apply Permutation_nil_r. symmetry. exact Hperm.
  - destruct S2 as [|b l2 S2 Hb].
    { apply Permutation_nil_r in Hperm. discriminate. }
    assert (a = b) as <-.
    { assert (Hain : a ∈ b :: l2) by (rewrite <- Hperm; left).
      assert (Hbin : b ∈ a :: l1) by (rewrite Hperm; left).
      apply Hinj; [left|exact Hbin|].
      apply N.le_antisymm.
      - apply elem_of_cons in Hbin as [->|Hbin]; [lia|].
        rewrite Forall_forall in Ha. apply Ha, Hbin.
      - apply elem_of_cons in Hain as [->|Hain]; [lia|].
        rewrite Forall_forall in Hb. apply Hb, Hain. }
    f_equal. apply IH; [exact S2| |].
    + apply (Permutation_cons_inv Hperm).
    + intros x y Hx Hy. apply Hinj; right; assumption.
Qed.

Lemma sort_by_unique {A} (rank : A → N) (l1 l2 : list A) :
  l1 ≡ₚ l2 →
  (∀ x y, x ∈ l1 → y ∈ l1 → rank x = rank y → x = y) →
  sort_by rank l1 = sort_by rank l2.
Proof.
  intros Hperm Hinj. apply (sorted_unique rank).
  - apply sort_by_ascending.
  - apply sort_by_ascending.
  - rewrite !sort_by_perm. exact Hperm.
  - intros x y Hx Hy. rewrite sort_by_perm in Hx, Hy. apply Hinj; assumption.
Qed.

Lemma sorted_snoc {A} (rank : A → N) (l : list A) (x : A) :
  Sorted (λ a b, (rank a <= rank b)%N) l →
  (∀ y, y ∈ l → (rank y <= rank x)%N) →
  Sorted (λ a b, (rank a <= rank b)%N) (l ++ [x]).
Proof.
  induction 1 as [|a l Hl IH Hhd]; intros Hle; simpl.
  - repeat constructor.
  - constructor.
    + apply IH. intros y Hy. apply Hle. right. exact Hy.
    + destruct Hhd as [|b l' Hab]; simpl; constructor; [|exact Hab].
      apply Hle. left.
Qed.

(** A connection created under a key that is not an array index, and
    numbered after the connections already filed, is listed last. *)
Lemma registry_values_insert (peers : gmap string PeerConnection) (key : string)
    (pc : PeerConnection) :
  peers !! key = None →
  array_index key = None →
  (∀ k pc', peers !! k = Some pc' → pc_id pc' < pc_id pc) →
  (∀ k1 k2 pc1 pc2, peers !! k1 = Some pc1 → peers !! k2 = Some pc2 →
     pc_id pc1 = pc_id pc2 → k1 = k2) →
  registry_values (<[key := pc]> peers) = registry_values peers ++ [pc].
Proof.
  intros Hnew Hkey Hlast Hdistinct. unfold registry_values.
  pose proof (map_to_list_insert peers key pc Hnew) as Hperm.
  rewrite fmap_app, fmap_app, <- app_assoc. f_equal.
  - f_equal. apply sort_by_unique.
    + rewrite Hperm, filter_cons. simpl.
      rewrite decide_False; [reflexivity|]. rewrite Hkey. intros [? ?]. discriminate.
    + intros [k1 p1] [k2 p2] H1 H2 Hrank.
      apply list_elem_of_filter in H1 as [[n1 Hn1] H1].
      apply list_elem_of_filter in H2 as [[n2 Hn2] H2]. simpl in *.
      rewrite Hn1, Hn2 in Hrank. simpl in Hrank. subst n2.
      assert (k1 = k2) as <- by exact (array_index_inj _ _ _ Hn1 Hn2).
      apply elem_of_map_to_list in H1, H2. congruence.
  - change [pc] with ((λ entry : string * PeerConnection, entry.2) <$> [(key, pc)]).
    rewrite <- fmap_app. f_equal.
    apply (sorted_unique (λ entry, N.of_nat (pc_id entry.2))).
    + apply sort_by_ascending.
    + apply sorted_snoc; [apply sort_by_ascending|].
      intros [k p] Hin. rewrite sort_by_perm in Hin.
      apply list_elem_of_filter in Hin as [_ Hin].
      apply elem_of_map_to_list in Hin. simpl.
      pose proof (Hlast k p Hin). lia.
    + rewrite !sort_by_perm, Hperm, filter_cons. simpl.
      rewrite decide_True by exact Hkey. apply Permutation_cons_append.
    + intros [k1 p1] [k2 p2] H1 H2 Hrank. simpl in Hrank.
      rewrite sort_by_perm in H1, H2.
      apply list_elem_of_filter in H1 as [_ H1].
      apply list_elem_of_filter in H2 as [_ H2].
      apply elem_of_map_to_list in H1, H2.
      apply Nat2N.inj in Hrank.
      apply lookup_insert_Some in H1 as [[<- <-]|[Hne1 H1]];
      apply lookup_insert_Some in H2 as [[<- <-]|[Hne2 H2]].
      * reflexivity.
      * pose proof (Hlast k2 p2 H2). lia.
      * pose proof (Hlast k1 p1 H1). lia.
      * assert (k1 = k2) as <- by exact (Hdistinct _ _ _ _ H1 H2 Hrank). congruence.
Qed.

(** ** The reducer *)

Lemma slice_last_length {A} (n : nat) (l : list A) :
  length (slice_last n l) = min n (length l).
Proof. unfold slice_last. rewrite length_drop. lia. Qed.

Lemma slice_last_short {A} (n : nat) (l : list A) :
  length l ≤ n → slice_last n l = l.
Proof.
  intros H. unfold slice_last.
  replace (length l - n) with 0 by lia. reflexivity.
Qed.

(** Trimming before or after one more item arrives gives the same window. *)
Lemma slice_last_snoc {A} (n : nat) (l : list A) (x : A) :
  slice_last (S n) (slice_last (S n) l ++ [x]) = slice_last (S n) (l ++ [x]).
Proof.
  unfold slice_last. rewrite !length_app, length_drop. simpl.
  destruct (decide (length l ≤ S n)) as [Hle|Hgt].
  - replace (length l - S n) with 0 by lia. rewrite drop_0.
    f_equal. lia.
  - rewrite drop_app_le by (rewrite length_drop; lia).
    rewrite drop_drop.
    rewrite (drop_app_le l) by lia.
    f_equal. f_equal. lia.
Qed.

Lemma append_all_snoc (messages : list jsval) (m : jsval) (state : State) :
  append_all (messages ++ [m]) state
  = webrtcReducer (append_all messages state) (ADD_CHAT_MESSAGE m).
Proof. unfold append_all. rewrite foldl_app. reflexivity. Qed.

Lemma append_all_chat (messages : list jsval) (state : State) :
  length (chatMessages state) ≤ 100 →
  chatMessages (append_all messages state)
  = slice_last 100 (chatMessages state ++ messages).
Proof.
  intros Hlen. induction messages as [|m rest IH] using rev_ind.
  - simpl. rewrite app_nil_r. symmetry. apply slice_last_short. exact Hlen.
  - rewrite append_all_snoc. simpl. rewrite IH, app_assoc.
    apply (slice_last_snoc 99).
Qed.

(** C2. However many chat messages are appended to a log of at most 100
    entries (the empty initial log in particular), the log never holds more
    than 100 entries, and once more than 100 messages have been appended it
    is exactly the last 100 of them, in the order they arrived. *)
Theorem chat_log_keeps_last_100 (messages : list jsval) (state : State) :
  length (chatMessages state) ≤ 100 →
  length (chatMessages (append_all messages state)) ≤ 100
  ∧ (100 < length messages →
     chatMessages (append_all messages state)
     = drop (length messages - 100) messages).
Proof.
  intros Hlen. rewrite append_all_chat by exact Hlen. split.
  - rewrite slice_last_length. lia.
  - intros Hmany. unfold slice_last. rewrite length_app.
    rewrite drop_app_ge by lia. f_equal. lia.
Qed.

(** C6. A reset keeps the local media handle of the prior state and puts
    every other field back to its initial value. *)
Theorem reset_keeps_only_local_media (state : State) :
  localStream (webrtcReducer state RESET_STATE) = localStream state
  ∧ remoteStreams (webrtcReducer state RESET_STATE) = remoteStreams initialState
  ∧ isStreaming (webrtcReducer state RESET_STATE) = isStreaming initialState
  ∧ isViewing (webrtcReducer state RESET_STATE) = isViewing initialState
  ∧ connectionState (webrtcReducer state RESET_STATE) = connectionState initialState
  ∧ chatMessages (webrtcReducer state RESET_STATE) = chatMessages initialState
  ∧ streamInfo (webrtcReducer state RESET_STATE) = streamInfo initialState
  ∧ viewers (webrtcReducer state RESET_STATE) = viewers initialState
  ∧ error (webrtcReducer state RESET_STATE) = error initialState
  ∧ isConnected (webrtcReducer state RESET_STATE) = isConnected initialState
  ∧ currentStreamId (webrtcReducer state RESET_STATE) = currentStreamId initialState.
Proof. repeat split. Qed.

(** ** Running the handlers *)

Ltac unfold_prims :=
  unfold mbind, M_bind, mret, M_ret, try_catch, throw, read, update, dispatch,
    perform, console_log, console_error, new_id, when_set,
    set_store, set_socketRef, set_peers, bump_fresh, record_effect,
    record_console, record_effects in *.

Lemma exec_run {A} (m : M A) (w : World) : exec m w = (run m w).2.
Proof. reflexivity. Qed.

Lemma forEach_perform {A} (f : A → Effect) (items : list A) (w : World) :
  forEach items (λ x, perform (f x)) w = (Ok (), record_effects (f <$> items) w).
Proof.
  revert w. induction items as [|x rest IH]; intros w.
  - destruct w. unfold record_effects. simpl. rewrite app_nil_r. reflexivity.
  - simpl. unfold mbind, M_bind. simpl. rewrite IH.
    unfold record_effects. simpl. rewrite <- app_assoc. reflexivity.
Qed.

Lemma stopViewing_run (w : World) :
  run stopViewing w =
  (Ok (),
   {| store :=
        webrtcReducer
          (webrtcReducer (webrtcReducer (store w) (SET_VIEWING false))
             (SET_CONNECTED false))
          (SET_CONNECTION_STATE "disconnected");
      socketRef := socketRef w;
      peerConnectionsRef := ∅;
      localVideoRef := localVideoRef w;
      fresh := fresh w;
      trace := trace w ++ closing_calls w;
      console := console w |}).
Proof.
  unfold run, stopViewing, close_all_peers, disconnect_socket, closing_calls.
  unfold mbind, M_bind, read. rewrite forEach_perform.
  destruct w as [st sock peers video n tr con]. unfold_prims. simpl.
  destruct sock; simpl; rewrite ?app_nil_r, <- ?app_assoc; reflexivity.
Qed.

Lemma stopStreaming_run (state : State) (w : World) :
  run (stopStreaming state) w =
  (Ok (),
   {| store := webrtcReducer (store w) RESET_STATE;
      socketRef := socketRef w;
      peerConnectionsRef := ∅;
      localVideoRef := localVideoRef w;
      fresh := fresh w;
      trace := trace w
               ++ (StopTrack <$> from_option getTracks [] (localStream state))
               ++ closing_calls w;
      console := console w |}).
Proof.
  unfold run, stopStreaming, close_all_peers, disconnect_socket, closing_calls.
  unfold mbind, M_bind, read.
  destruct w as [st sock peers video n tr con].
  destruct (localStream state) as [stream|]; simpl;
    rewrite ?forEach_perform; simpl; rewrite ?forEach_perform;
    unfold_prims; simpl;
    destruct sock; simpl; rewrite ?app_nil_r, <- ?app_assoc; reflexivity.
Qed.


Section Handlers.

Variable rejects : list Effect → Effect → bool.

Lemma stream_ended_run (state : State) (sender : option string) (payload : jsval)
    (w : World) :
  run (handleWebSocketMessage rejects state
         (Parsed {| in_type := "stream_ended"; sender_id := sender;
                    in_data := payload |})) w
  = run stopViewing (record_console "Stream ended" w).
Proof.
  unfold run, handleWebSocketMessage, parse. simpl.
  unfold try_catch, mbind, M_bind, mret, M_ret, console_log, update. simpl.
  fold (run stopViewing (record_console "Stream ended" w)).
  rewrite stopViewing_run. reflexivity.
Qed.

Lemma closing_calls_close_every_peer (w : World) (key : string) (pc : PeerConnection) :
  peerConnectionsRef w !! key = Some pc → ClosePeer (pc_id pc) ∈ closing_calls w.
Proof.
  intros Hpc. unfold closing_calls.
  apply elem_of_app. left.
  apply list_elem_of_fmap. exists pc. split; [reflexivity|].
  apply registry_values_elem. exists key. exact Hpc.
Qed.

Lemma closing_calls_disconnect (w : World) (s : Socket) :
  socketRef w = Some s → DisconnectSocket (sock_id s) ∈ closing_calls w.
Proof.
  intros Hs. unfold closing_calls. rewrite Hs.
  apply elem_of_app. right. apply list_elem_of_singleton. reflexivity.
Qed.

(** What [stopViewing()] does, called by a component or forced by an
    inbound 'stream_ended' envelope: the registry is emptied, the calls
    made are the [close()] of every peer connection it held, in the order
    of [Object.values], then the [disconnect()] of the socket, and the
    state gets [isViewing] and [isConnected] false and [connectionState]
    'disconnected'; local media, the streaming flag, chat log, error and
    current stream id are those of the state before. *)
Lemma stopViewing_closes_and_flags (state : State) (sender : option string)
    (payload : jsval) (w : World) :
  let stopped w' :=
    peerConnectionsRef w' = ∅
    ∧ trace w' = trace w ++ closing_calls w
    ∧ isViewing (store w') = false
    ∧ isConnected (store w') = false
    ∧ connectionState (store w') = "disconnected"
    ∧ localStream (store w') = localStream (store w)
    ∧ isStreaming (store w') = isStreaming (store w)
    ∧ chatMessages (store w') = chatMessages (store w)
    ∧ error (store w') = error (store w)
    ∧ currentStreamId (store w') = currentStreamId (store w) in
  stopped (exec stopViewing w)
  ∧ stopped (exec (handleWebSocketMessage rejects state
                     (Parsed {| in_type := "stream_ended"; sender_id := sender;
                                in_data := payload |})) w).
Proof.
  intros stopped. subst stopped. cbv beta.
  rewrite !exec_run, stream_ended_run, !stopViewing_run. simpl.
  repeat split; reflexivity.
Qed.

(** C10. An inbound 'stream_started' envelope only writes a line to the
    console, whoever sent it and whatever it carries: the router returns
    normally, and the state, the registry, the socket and the calls made on
    the outside are those of before. *)
Theorem stream_started_only_logs (state : State) (sender : option string)
    (payload : jsval) (w : World) :
  let message := Parsed {| in_type := "stream_started"; sender_id := sender;
                           in_data := payload |} in
  let w' := handle rejects (SocketMessage message) w in
  run (handleWebSocketMessage rejects state message) w
  = (Ok (), record_console "Stream started" w)
  ∧ store w' = store w
  ∧ peerConnectionsRef w' = peerConnectionsRef w
  ∧ socketRef w' = socketRef w
  ∧ localVideoRef w' = localVideoRef w
  ∧ trace w' = trace w.
Proof.
  intros message w'. subst w' message. split.
  - unfold run, handleWebSocketMessage, parse, try_catch, mbind, M_bind. simpl.
    reflexivity.
  - unfold handle, exec, on_socket, mbind, M_bind, read. simpl.
    destruct (socketRef w) as [s|] eqn:Hs; simpl; rewrite ?Hs; repeat split.
Qed.

Lemma answer_with_peer (state : State) (sender : option string) (payload : jsval)
    (pc : PeerConnection) (w : World) :
  peerConnectionsRef w !! prop_key sender = Some pc →
  rejects (trace w) (SetRemoteDescription (pc_id pc) payload) = false →
  run (handleWebSocketMessage rejects state
         (Parsed {| in_type := "answer"; sender_id := sender; in_data := payload |})) w
  = (Ok (), record_effect (SetRemoteDescription (pc_id pc) payload) w).
Proof.
  intros Hpc Hok.
  unfold run, handleWebSocketMessage, handleRemoteAnswer, parse, registry_get.
  unfold try_catch, mbind, M_bind, read, call. simpl.
  rewrite Hpc. simpl. rewrite Hok. reflexivity.
Qed.

Lemma candidate_with_peer (state : State) (sender : option string) (payload : jsval)
    (pc : PeerConnection) (w : World) :
  peerConnectionsRef w !! prop_key sender = Some pc →
  rejects (trace w) (AddIceCandidate (pc_id pc) payload) = false →
  run (handleWebSocketMessage rejects state
         (Parsed {| in_type := "ice_candidate"; sender_id := sender;
                    in_data := payload |})) w
  = (Ok (), record_effect (AddIceCandidate (pc_id pc) payload) w).
Proof.
  intros Hpc Hok.
  unfold run, handleWebSocketMessage, handleRemoteIceCandidate, parse, registry_get.
  unfold try_catch, mbind, M_bind, read, call. simpl.
  rewrite Hpc. simpl. rewrite Hok. reflexivity.
Qed.

Lemma registry_get_missing (peers : gmap string PeerConnection) (sender : option string) :
  peers !! prop_key sender = None →
  registry_get peers sender
  = if inherited_key (prop_key sender) then Inherited else Absent.
Proof. intros H. unfold registry_get. rewrite H. reflexivity. Qed.

(** C9. An 'answer' or 'ice_candidate' envelope from a sender the registry
    holds no peer connection for is dropped: the router returns normally,
    no call is made on any peer connection, none is created, and the state
    and the socket are as before.  Unless the sender's id names a property
    of [Object.prototype], nothing at all changes, the console included. *)
Theorem answer_or_candidate_without_peer (state : State) (kind : string)
    (sender : option string) (payload : jsval) (w : World) :
  kind = "answer" ∨ kind = "ice_candidate" →
  peerConnectionsRef w !! prop_key sender = None →
  let outcome :=
    run (handleWebSocketMessage rejects state
           (Parsed {| in_type := kind; sender_id := sender; in_data := payload |})) w in
  outcome.1 = Ok ()
  ∧ store outcome.2 = store w
  ∧ peerConnectionsRef outcome.2 = peerConnectionsRef w
  ∧ socketRef outcome.2 = socketRef w
  ∧ trace outcome.2 = trace w
  ∧ (inherited_key (prop_key sender) = false → outcome.2 = w).
Proof.
  intros Hkind Hmissing outcome. subst outcome.
  unfold run, handleWebSocketMessage, handleRemoteAnswer,
    handleRemoteIceCandidate, parse.
  destruct Hkind as [-> | ->]; simpl;
    unfold try_catch, mbind, M_bind, read; simpl;
    rewrite (registry_get_missing _ _ Hmissing);
    destruct (inherited_key (prop_key sender)); simpl;
    repeat split; try reflexivity; try discriminate;
    intros _; destruct w; reflexivity.
Qed.

Lemma initializeCamera_run (stream : MediaStream) (w : World) :
  run (initializeCamera (Some stream)) w
  = (Ok stream,
     {| store := webrtcReducer (store w) (SET_LOCAL_STREAM (Some stream));
        socketRef := socketRef w;
        peerConnectionsRef := peerConnectionsRef w;
        localVideoRef := localVideoRef w; fresh := fresh w;
        trace := trace w ++ (if localVideoRef w then [SetSrcObject (ms_id stream)] else []);
        console := console w |}).
Proof.
  unfold run, initializeCamera, getUserMedia. unfold_prims.
  destruct w as [st sock peers [|] n tr con]; simpl;
    rewrite ?app_nil_r; reflexivity.
Qed.

(** C4 (as amended). The state holds one local media handle: a newly
    acquired capture stream takes the place of the previous one.  Storing
    it makes no call on the previous stream; in particular none of its
    tracks is stopped (the only call is the assignment to the preview
    element, when one is mounted). *)
Theorem initializeCamera_replaces_handle (stream : MediaStream) (w : World) :
  let w' := exec (initializeCamera (Some stream)) w in
  localStream (store w') = Some stream
  ∧ trace w' = trace w ++ (if localVideoRef w then [SetSrcObject (ms_id stream)] else [])
  ∧ (∀ track, StopTrack track ∈ trace w' ↔ StopTrack track ∈ trace w).
Proof.
  intros w'. subst w'. rewrite exec_run, initializeCamera_run. simpl.
  split; [reflexivity|]. split; [reflexivity|].
  intros track. rewrite elem_of_app.
  destruct (localVideoRef w); split; intros H; auto;
    destruct H as [H|H]; auto; inversion H; subst;
    match goal with H : _ ∈ [] |- _ => inversion H end.
Qed.

End Handlers.

(** ** Invariants *)

Section Preservation.

Variable P : World → Prop.

Lemma preserves_ret {A} (a : A) : preserves P (mret a).
Proof. intros w H. exact H. Qed.

Lemma preserves_throw {A} : preserves P (@throw A).
Proof. intros w H. exact H. Qed.

Lemma preserves_read {A} (f : World → A) : preserves P (read f).
Proof. intros w H. exact H. Qed.

Lemma preserves_update (f : World → World) :
  (∀ w, P w → P (f w)) → preserves P (update f).
Proof. intros Hf w H. apply Hf, H. Qed.

Lemma preserves_bind {A B} (m : M A) (f : A → M B) :
  preserves P m → (∀ a, preserves P (f a)) → preserves P (m ≫= f).
Proof.
  intros Hm Hf w H. specialize (Hm w H).
  unfold mbind, M_bind. destruct (m w) as [[a|] w']; simpl in *.
  - apply Hf, Hm.
  - exact Hm.
Qed.

Lemma preserves_try_catch {A} (body handler : M A) :
  preserves P body → preserves P handler → preserves P (try_catch body handler).
Proof.
  intros Hb Hh w H. specialize (Hb w H).
  unfold try_catch. destruct (body w) as [[a|] w']; simpl in *.
  - exact Hb.
  - apply Hh, Hb.
Qed.

Lemma preserves_forEach {A} (items : list A) (f : A → M unit) :
  (∀ x, preserves P (f x)) → preserves P (forEach items f).
Proof.
  intros Hf. induction items as [|x rest IH]; simpl.
  - apply preserves_ret.
  - apply preserves_bind; [apply Hf | intros _; exact IH].
Qed.

Lemma preserves_when_set (flag : bool) (body : M unit) :
  preserves P body → preserves P (when_set flag body).
Proof. intros Hb. destruct flag; simpl; [exact Hb | apply preserves_ret]. Qed.

Lemma preserves_new_id : (∀ w, P w → P (bump_fresh w)) → preserves P new_id.
Proof. intros Hf w H. apply Hf, H. Qed.

Lemma preserves_call (rejects : list Effect → Effect → bool) (e : Effect) :
  (∀ w, P w → P (record_effect e w)) → preserves P (call rejects e).
Proof.
  intros Hf w H. unfold call. destruct (rejects (trace w) e); simpl.
  - exact H.
  - apply Hf, H.
Qed.

Lemma preserves_with_render {A} (f : State → M A) :
  (∀ state, preserves P (f state)) → preserves P (with_render f).
Proof. intros Hf w H. unfold with_render. apply Hf, H. Qed.

End Preservation.

Ltac unfold_handlers :=
  unfold startStreaming, joinStream, stopStreaming, stopViewing, sendChatMessage,
    initializeCamera, getUserMedia, connectWebSocket, on_connect, on_disconnect,
    handleWebSocketMessage, handleRemoteOffer, handleRemoteAnswer,
    handleRemoteIceCandidate, createPeerConnection, cleanupPeerConnection,
    as_peer, onicecandidate, ontrack, onconnectionstatechange, close_all_peers,
    disconnect_socket, parse, property, on_socket, on_peer,
    dispatch, perform, console_log, console_error.

(** Takes a goal [preserves P m] apart along the structure of [m]; [prim]
    settles what a primitive update does to [P]. *)
Ltac preserves_step prim :=
  lazymatch goal with
  | |- preserves _ (match ?x with _ => _ end) => destruct x
  | |- preserves _ (mret _) => apply preserves_ret
  | |- preserves _ throw => apply preserves_throw
  | |- preserves _ (read _) => apply preserves_read
  | |- preserves _ (_ ≫= _) => apply preserves_bind; [|intros ?]
  | |- preserves _ (try_catch _ _) => apply preserves_try_catch
  | |- preserves _ (forEach _ _) => apply preserves_forEach; intros ?
  | |- preserves _ (when_set _ _) => apply preserves_when_set
  | |- preserves _ (with_render _) => apply preserves_with_render; intros ?
  | |- preserves _ new_id => apply preserves_new_id; prim
  | |- preserves _ (call _ _) => apply preserves_call; prim
  | |- preserves _ (update _) => apply preserves_update; prim
  end.

Ltac preserves_auto prim :=
  repeat first [ preserves_step prim | progress unfold_handlers ].

Section Invariants.

Variable rejects : list Effect → Effect → bool.

Lemma peer_state_allowed (s : RTCPeerConnectionState) :
  pc_state_name s ∈ api_connection_states ++ peer_connection_states.
Proof. destruct s; cbv; repeat constructor. Qed.

Lemma api_state_allowed (name : string) :
  name ∈ api_connection_states →
  name ∈ api_connection_states ++ peer_connection_states.
Proof. intros H. apply elem_of_app. left. exact H. Qed.

Ltac state_prim :=
  let w := fresh "w" in let H := fresh "H" in
  intros w H; unfold connection_state_ok in *; simpl;
  first [ exact H
        | apply peer_state_allowed
        | apply api_state_allowed; solve [repeat constructor] ].

Lemma handle_connection_state (e : Event) (w : World) :
  connection_state_ok w → connection_state_ok (handle rejects e w).
Proof.
  intros H. destruct e; simpl; try exact H;
  match goal with
  | |- connection_state_ok (exec ?m w) =>
      cut (preserves connection_state_ok m); [intros Hp; exact (Hp w H)|]
  end; preserves_auto state_prim.
Qed.

End Invariants.

(** ** Trimming *)

Lemma trim_start_split (s : jsstring) :
  ∃ pre, s = pre ++ trim_start s ∧ forallb is_js_space pre = true.
Proof.
  induction s as [|c rest [pre [Heq Hpre]]]; simpl.
  - exists []. split; reflexivity.
  - destruct (is_js_space c) eqn:Hc.
    + exists (c :: pre). simpl. rewrite Hc, Hpre. split; [f_equal; exact Heq | reflexivity].
    + exists []. split; reflexivity.
Qed.

Lemma trim_start_head (s : jsstring) (c : N) (rest : jsstring) :
  trim_start s = c :: rest → is_js_space c = false.
Proof.
  induction s as [|d s IH]; simpl; [discriminate|].
  destruct (is_js_space d) eqn:Hd; [exact IH|].
  intros [= -> _]. exact Hd.
Qed.

(** [trim] removes a run of white space at either end and nothing else, and
    what is left neither starts nor ends with white space. *)
Lemma trim_spec (s : jsstring) :
  ∃ pre post,
    s = pre ++ trim s ++ post
    ∧ forallb is_js_space pre = true
    ∧ forallb is_js_space post = true
    ∧ (∀ c rest, trim s = c :: rest → is_js_space c = false)
    ∧ (∀ init c, trim s = init ++ [c] → is_js_space c = false).
Proof.
  destruct (trim_start_split s) as [pre [Hs Hpre]].
  destruct (trim_start_split (rev (trim_start s))) as [tail [Hr Htail]].
  assert (Hmid : trim_start s = trim s ++ rev tail).
  { unfold trim, trim_end. rewrite <- rev_app_distr, <- Hr, rev_involutive. reflexivity. }
  exists pre, (rev tail). repeat split.
  - rewrite <- Hmid. exact Hs.
  - exact Hpre.
  - rewrite forallb_forall in *. intros x Hx. apply Htail, in_rev, Hx.
  - intros c rest Hc. rewrite Hc in Hmid. simpl in Hmid.
    apply (trim_start_head s c _ Hmid).
  - intros init c Hc. unfold trim, trim_end in Hc.
    apply (f_equal (@rev N)) in Hc. rewrite rev_involutive, rev_unit in Hc.
    apply (trim_start_head _ _ _ Hc).
Qed.

Example trim_hello : trim (code_units "  hello  ") = code_units "hello".
Proof. reflexivity. Qed.

Section System.

Variable rejects : list Effect → Effect → bool.

Lemma handle_all_snoc (events : list Event) (e : Event) (w : World) :
  handle_all rejects (events ++ [e]) w = handle rejects e (handle_all rejects events w).
Proof. unfold handle_all. rewrite foldl_app. reflexivity. Qed.

Lemma reachable_invariant (P : World → Prop) :
  P initialWorld →
  (∀ e w, P w → P (handle rejects e w)) →
  ∀ w, reachable rejects w → P w.
Proof.
  intros Hinit Hstep w [events ->].
  induction events as [|e events IH] using rev_ind.
  - exact Hinit.
  - rewrite handle_all_snoc. apply Hstep, IH.
Qed.

Lemma reachable_connection_state (w : World) :
  reachable rejects w → connection_state_ok w.
Proof.
  apply reachable_invariant.
  - cbv. repeat constructor.
  - apply handle_connection_state.
Qed.

(** C7 (as amended). In every reachable state [connectionState] is one of
    'disconnected', 'connecting', 'connected', 'streaming', 'viewing' or
    one of the further values a peer connection reports: 'new', 'failed',
    'closed'. *)
Theorem connection_state_values (w : World) :
  reachable rejects w →
  connectionState (store w) ∈ spec_connection_states ++ ["new"; "failed"; "closed"].
Proof.
  intros Hw. apply reachable_connection_state in Hw.
  unfold connection_state_ok in Hw.
  revert Hw. generalize (connectionState (store w)). intros name Hw.
  cbv in Hw.
  repeat (apply elem_of_cons in Hw as [->|Hw]); try (cbv; solve [repeat constructor]).
  inversion Hw.
Qed.

(** *** The chat log of a reachable state *)

Ltac chat_prim :=
  let w := fresh "w" in let H := fresh "H" in
  intros w H; simpl;
  first [ exact H | simpl; lia | rewrite slice_last_length; lia ].

Lemma handle_chat_bounded (e : Event) (w : World) :
  length (chatMessages (store w)) ≤ 100 →
  length (chatMessages (store (handle rejects e w))) ≤ 100.
Proof.
  intros H. destruct e; simpl; try exact H;
  match goal with
  | |- length (chatMessages (store (exec ?m w))) ≤ 100 =>
      cut (preserves (λ w, length (chatMessages (store w)) ≤ 100) m);
      [intros Hp; exact (Hp w H)|]
  end; preserves_auto chat_prim.
Qed.

Lemma reachable_chat_bounded (w : World) :
  reachable rejects w → length (chatMessages (store w)) ≤ 100.
Proof.
  apply (reachable_invariant (λ w, length (chatMessages (store w)) ≤ 100)).
  - simpl. lia.
  - apply handle_chat_bounded.
Qed.

(** *** The socket of a connected session *)

Ltac socket_prim :=
  let w := fresh "w" in let H := fresh "H" in
  intros w H; unfold connected_has_socket in *; simpl;
  first [ exact H | intros _; reflexivity | discriminate ].

Lemma handle_connected_has_socket (e : Event) (w : World) :
  connected_has_socket w → connected_has_socket (handle rejects e w).
Proof.
  intros H. destruct e; simpl; try exact H;
  try (match goal with
       | |- connected_has_socket (exec ?m w) =>
           cut (preserves connected_has_socket m); [intros Hp; exact (Hp w H)|]
       end; preserves_auto socket_prim; fail).
  unfold exec, on_socket, on_connect, mbind, M_bind, read. simpl.
  destruct (socketRef w) as [s|] eqn:Hs; simpl.
  - unfold connected_has_socket. simpl. rewrite Hs. discriminate.
  - exact H.
Qed.

Lemma reachable_connected_has_socket (w : World) :
  reachable rejects w → connected_has_socket w.
Proof.
  apply reachable_invariant.
  - intros _. reflexivity.
  - apply handle_connected_has_socket.
Qed.


End System.

(** ** Answering an offer *)

Section Offer.

Variable rejects : list Effect → Effect → bool.

Lemma forEach_call {A} (f : A → Effect) (items : list A) (w : World) :
  (∀ tr e, rejects tr e = false) →
  forEach items (λ x, call rejects (f x)) w = (Ok (), record_effects (f <$> items) w).
Proof.
  intros Hacc. revert w. induction items as [|x rest IH]; intros w.
  - destruct w. unfold record_effects. simpl. rewrite app_nil_r. reflexivity.
  - simpl. unfold mbind, M_bind, call at 1. rewrite Hacc, IH.
    unfold record_effects, record_effect. simpl. rewrite <- app_assoc. reflexivity.
Qed.

(** What the handler does, seen from the render it belongs to: with a
    socket held and no call rejected, it reuses the sender's peer
    connection, applies the offer, attaches every track of the local
    stream of [state], then creates and applies the answer and emits one
    'answer' envelope for the sender, tagged with [state.currentStreamId]. *)
Lemma handleRemoteOffer_reuses (state : State) (message : Message)
    (pc : PeerConnection) (s : Socket) (w : World) :
  (∀ tr e, rejects tr e = false) →
  socketRef w = Some s →
  peerConnectionsRef w !! prop_key (sender_id message) = Some pc →
  run (handleRemoteOffer rejects state message) w
  = (Ok (), record_effects (negotiation_calls state message (pc_id pc) (sock_id s)) w).
Proof.
  intros Hacc Hs Hpc.
  destruct w as [st sock peers video n tr con]. simpl in Hs, Hpc. subst sock.
  unfold run, handleRemoteOffer, createPeerConnection, as_peer, registry_get,
    negotiation_calls.
  unfold try_catch, mbind, M_bind, read, mret, M_ret. simpl. rewrite Hpc. simpl.
  unfold call at 1. rewrite Hacc.
  destruct (localStream state) as [stream|]; simpl;
    rewrite ?forEach_call by exact Hacc; simpl;
    unfold call; simpl; rewrite !Hacc; simpl;
    unfold perform, update, record_effect, record_effects; simpl;
    rewrite <- ?app_assoc; reflexivity.
Qed.

(** The same when the sender is new: a peer connection is created for it
    first and entered in the registry. *)
Lemma handleRemoteOffer_creates (state : State) (message : Message)
    (s : Socket) (w : World) :
  (∀ tr e, rejects tr e = false) →
  socketRef w = Some s →
  peerConnectionsRef w !! prop_key (sender_id message) = None →
  inherited_key (prop_key (sender_id message)) = false →
  run (handleRemoteOffer rejects state message) w
  = (Ok (),
     {| store := store w; socketRef := socketRef w;
        peerConnectionsRef :=
          <[prop_key (sender_id message) :=
              {| pc_id := fresh w; pc_userId := sender_id message;
                 pc_streamId := currentStreamId state |}]> (peerConnectionsRef w);
        localVideoRef := localVideoRef w;
        fresh := S (fresh w);
        trace := trace w ++ NewPeerConnection (fresh w)
                   :: negotiation_calls state message (fresh w) (sock_id s);
        console := console w |}).
Proof.
  intros Hacc Hs Hpc Hkey.
  destruct w as [st sock peers video n tr con]. simpl in Hs, Hpc. subst sock.
  unfold run, handleRemoteOffer, createPeerConnection, as_peer, registry_get,
    negotiation_calls.
  unfold try_catch, mbind, M_bind, read, mret, M_ret, new_id. simpl.
  rewrite Hpc, Hkey. simpl.
  unfold call at 1. rewrite Hacc. simpl.
  unfold call at 1. rewrite Hacc. simpl.
  destruct (localStream state) as [stream|]; simpl;
    rewrite ?forEach_call by exact Hacc; simpl;
    unfold call; simpl; rewrite !Hacc; simpl;
    unfold perform, update, record_effect, record_effects; simpl;
    rewrite <- ?app_assoc; reflexivity.
Qed.

(** The router hands every offer to the handler of the mount render, so
    what it does with an offer does not depend on the session state. *)
Lemma offer_handling_ignores_state (f : State → State) (sender : option string)
    (payload : jsval) (w : World) :
  let offer := SocketMessage (Parsed {| in_type := "offer"; sender_id := sender;
                                        in_data := payload |}) in
  handle rejects offer (set_store f w) = set_store f (handle rejects offer w).
Proof.
  intros offer. subst offer.
  destruct w as [st sock peers video n tr con].
  unfold handle, exec, on_socket, handleWebSocketMessage, handleRemoteOffer,
    createPeerConnection, as_peer, parse, registry_get, call.
  unfold_prims. simpl.
  destruct sock as [s|]; simpl; [|reflexivity].
  destruct (peers !! prop_key sender) as [pc|]; simpl;
    [|destruct (inherited_key (prop_key sender)); simpl];
    repeat match goal with
           | |- context [rejects ?tr ?e] => destruct (rejects tr e); simpl
           end;
    reflexivity.
Qed.

End Offer.

(** C1 (what the code does). A streamer holds a camera stream with tracks 11
    and 12 and is connected to session "s1".  An offer from "P" gets a peer
    connection and one 'answer' envelope addressed to "P", but no track is
    attached before the answer is created and the envelope carries no
    stream id: the handler runs with the state of the mount render. *)
Theorem offer_answered_with_mount_state :
  let w := streaming_s1 in
  let w' := handle accepts_all (SocketMessage (offer_from "P")) w in
  localStream (store w) = Some camera1
  ∧ currentStreamId (store w) = Some "s1"
  ∧ is_Some (peerConnectionsRef w' !! "P")
  ∧ trace w' =
      trace w ++
      [ NewPeerConnection 1;
        SetRemoteDescription 1 (VObj [("type", VStr "offer"); ("sdp", VStr "v=0")]);
        CreateAnswer 1;
        SetLocalDescription 1;
        Emit 0 {| type := "answer"; data := DAnswer 1;
                  target_id := Some "P"; stream_id := None |} ].
Proof. repeat split. vm_compute. eexists. reflexivity. Qed.

(** ** Which render's state a callback sees *)

Lemma callbacks_sound_later (states more : list State) (callbacks : Callbacks)
    (state : State) :
  callbacks_sound states callbacks state →
  callbacks_sound (states ++ more) callbacks state.
Proof.
  intros (H0 & H1 & (s1 & Hs1 & H2) & H3 & (s2 & Hs2 & H4)).
  repeat split; auto.
  - exists s1. split; [apply lookup_app_l_Some, Hs1 | auto].
  - exists s2. split; [apply lookup_app_l_Some, Hs2 | auto].
Qed.

Lemma render_callbacks_sound (done : list State) (previous : option Callbacks)
    (state : State) :
  match previous with
  | None => done = []
  | Some callbacks => ∃ before, callbacks_sound done callbacks before
  end →
  callbacks_sound (done ++ [state])
    (render_callbacks previous (length done) state) state.
Proof.
  assert (Hnew : (done ++ [state]) !! length done = Some state).
  { rewrite lookup_app_r by lia. rewrite Nat.sub_diag. reflexivity. }
  destruct previous as [callbacks|]; simpl.
  - intros [before (H0 & H1 & (s1 & Hs1 & H2a & H2b) & H3 & (s2 & Hs2 & H4))].
    unfold callbacks_sound, render_callbacks, useCallback. simpl.
    destruct (cb_handleWebSocketMessage callbacks) as [built []]. simpl in H0.
    destruct (cb_sendChatMessage callbacks) as [b1 d1]. simpl in *.
    destruct (cb_stopStreaming callbacks) as [b2 d2]. simpl in *.
    split; [destruct (decide (() = ())); [exact H0 | congruence]|].
    destruct (decide (d1 = (isConnected state, currentStreamId state))) as [E1|N1];
    destruct (decide (d2 = localStream state)) as [E2|N2]; simpl;
      repeat split; eauto using lookup_app_l_Some; try congruence.
    + exists s1. split; [apply lookup_app_l_Some, Hs1|].
      rewrite H1 in E1. injection E1 as <- <-. auto.
    + exists s2. split; [apply lookup_app_l_Some, Hs2|]. congruence.
    + exists s1. split; [apply lookup_app_l_Some, Hs1|].
      rewrite H1 in E1. injection E1 as <- <-. auto.
    + exists s2. split; [apply lookup_app_l_Some, Hs2|]. congruence.
  - intros ->. simpl in *. unfold callbacks_sound. simpl.
    repeat split; eauto.
Qed.

Lemma renders_sound (todo done : list State) (previous : option Callbacks)
    (i : nat) (callbacks : Callbacks) (state : State) :
  match previous with
  | None => done = []
  | Some earlier => ∃ before, callbacks_sound done earlier before
  end →
  renders previous (length done) todo !! i = Some callbacks →
  todo !! i = Some state →
  callbacks_sound (done ++ todo) callbacks state.
Proof.
  revert done previous i. induction todo as [|s todo IH]; intros done previous i Hp Hc Hs.
  - discriminate.
  - pose proof (render_callbacks_sound done previous s Hp) as Hstep.
    destruct i as [|i]; simpl in Hc, Hs.
    + injection Hc as <-. injection Hs as <-.
      rewrite (cons_middle s done todo), app_assoc.
      apply callbacks_sound_later, Hstep.
    + rewrite (cons_middle s done todo), app_assoc.
      apply (IH (done ++ [s]) (Some (render_callbacks previous (length done) s)) i).
      * exists s. exact Hstep.
      * rewrite length_app. simpl. rewrite Nat.add_1_r. exact Hc.
      * exact Hs.
Qed.

Lemma render_history_sound (states : list State) (i : nat) (callbacks : Callbacks)
    (state : State) :
  render_history states !! i = Some callbacks →
  states !! i = Some state →
  callbacks_sound states callbacks state.
Proof. intros Hc Hs. exact (renders_sound states [] None i callbacks state eq_refl Hc Hs). Qed.

Lemma render_history_length (states : list State) :
  length (render_history states) = length states.
Proof.
  unfold render_history. generalize (@None Callbacks) 0.
  induction states as [|s states IH]; intros p n; simpl; [reflexivity|].
  rewrite IH. reflexivity.
Qed.

(** Whatever the renders since, the offers that reach the router are handled
    with the state of the mount render. *)
Lemma router_offer_state_is_mount (mount : State) (later : list State) (i : nat) :
  i < length (mount :: later) →
  router_offer_state (mount :: later) i = Some mount.
Proof.
  intros Hi. unfold router_offer_state.
  destruct (lookup_lt_is_Some_2 (render_history (mount :: later)) i) as [listener Hl].
  { rewrite render_history_length. exact Hi. }
  destruct (lookup_lt_is_Some_2 (mount :: later) i Hi) as [state Hs].
  destruct (render_history_sound _ _ _ _ Hl Hs) as (Hrouter & _).
  rewrite Hl. simpl. rewrite Hrouter. reflexivity.
Qed.

(** The [sendChatMessage] and [stopStreaming] handed to the components by a
    render read, in the state they close over, the values that render saw. *)
Lemma api_callbacks_see_latest (states : list State) (i : nat) (callbacks : Callbacks)
    (state : State) :
  render_history states !! i = Some callbacks →
  states !! i = Some state →
  (∃ seen, states !! (cb_sendChatMessage callbacks).1 = Some seen
     ∧ isConnected seen = isConnected state
     ∧ currentStreamId seen = currentStreamId state)
  ∧ (∃ seen, states !! (cb_stopStreaming callbacks).1 = Some seen
       ∧ localStream seen = localStream state).
Proof.
  intros Hc Hs.
  destruct (render_history_sound _ _ _ _ Hc Hs) as (_ & _ & H1 & _ & H2).
  split; assumption.
Qed.

(** ** Instances and counterexamples *)

Lemma chat_log_keeps_last_100_witness :
  length (chatMessages initialState) ≤ 100
  ∧ 100 < length numbered_messages
  ∧ length (chatMessages (append_all numbered_messages initialState)) ≤ 100
  ∧ chatMessages (append_all numbered_messages initialState)
    = drop 50 numbered_messages.
Proof.
  assert (Hlen : length (chatMessages initialState) ≤ 100) by (simpl; lia).
  assert (Hmany : 100 < length numbered_messages) by (vm_compute; lia).
  destruct (chat_log_keeps_last_100 numbered_messages initialState Hlen) as [Hle Hlast].
  split; [exact Hlen|]. split; [exact Hmany|]. split; [exact Hle|]. exact (Hlast Hmany).
Defined.

Lemma answer_or_candidate_without_peer_witness :
  let outcome :=
    run (handleWebSocketMessage accepts_all initialState
           (Parsed {| in_type := "ice_candidate"; sender_id := Some "P";
                      in_data := VNull |})) streaming_s1 in
  outcome.1 = Ok ()
  ∧ store outcome.2 = store streaming_s1
  ∧ peerConnectionsRef outcome.2 = peerConnectionsRef streaming_s1
  ∧ socketRef outcome.2 = socketRef streaming_s1
  ∧ trace outcome.2 = trace streaming_s1
  ∧ outcome.2 = streaming_s1.
Proof.
  destruct (answer_or_candidate_without_peer accepts_all initialState "ice_candidate"
              (Some "P") VNull streaming_s1)
    as (H1 & H2 & H3 & H4 & H5 & H6).
  - right. reflexivity.
  - vm_compute. reflexivity.
  - cbv zeta. do 5 (split; [assumption|]). apply H6. vm_compute. reflexivity.
Defined.

Lemma connection_state_values_witness :
  connectionState (store viewing_s1)
  ∈ spec_connection_states ++ ["new"; "failed"; "closed"].
Proof.
  apply (connection_state_values accepts_all viewing_s1).
  exists [JoinStream "s1"; SocketConnect; SocketMessage (offer_from "P"); PeerTrack "P" [7]].
  reflexivity.
Defined.

(** C3 (what the code does). A viewer of session "s1" has negotiated with
    "P" and received its stream 7.  After [stopViewing()], called directly
    or forced by a 'stream_ended' envelope, the peer connection of "P" has
    been closed and the registry is empty, but the stream of "P" is still in
    [remoteStreams] and the state is not the reset state.  The other two
    ways out do remove it: [cleanupPeerConnection], run when the connection
    of "P" fails, deletes the entry with the connection, and
    [stopStreaming] resets the state.  Nothing removes the entry later: it
    is still there once the viewer has joined session "s2".  For every
    world, [stopViewing] empties the registry and leaves [remoteStreams] as
    it was. *)
Theorem stopViewing_leaves_remote_stream :
  let direct := handle accepts_all StopViewing viewing_s1 in
  let forced := handle accepts_all (SocketMessage stream_ended) viewing_s1 in
  let failed := handle accepts_all (PeerConnectionState "P" PcFailed) viewing_s1 in
  let reset := handle accepts_all StopStreaming viewing_s1 in
  let rejoined := handle_all accepts_all [JoinStream "s2"; SocketConnect] direct in
  (pc_id <$> peerConnectionsRef viewing_s1 !! "P" = Some 1
   ∧ remoteStreams (store viewing_s1) !! "P" = Some (Some 7))
  ∧ (trace direct = trace viewing_s1 ++ [ClosePeer 1; DisconnectSocket 0]
     ∧ peerConnectionsRef direct = ∅
     ∧ remoteStreams (store direct) !! "P" = Some (Some 7)
     ∧ store direct ≠ webrtcReducer (store viewing_s1) RESET_STATE)
  ∧ (trace forced = trace viewing_s1 ++ [ClosePeer 1; DisconnectSocket 0]
     ∧ peerConnectionsRef forced = ∅
     ∧ remoteStreams (store forced) !! "P" = Some (Some 7)
     ∧ store forced ≠ webrtcReducer (store viewing_s1) RESET_STATE)
  ∧ (trace failed = trace viewing_s1 ++ [ClosePeer 1]
     ∧ peerConnectionsRef failed = ∅
     ∧ remoteStreams (store failed) = ∅)
  ∧ (peerConnectionsRef reset = ∅
     ∧ remoteStreams (store reset) = ∅)
  ∧ (currentStreamId (store rejoined) = Some "s2"
     ∧ isViewing (store rejoined) = true
     ∧ peerConnectionsRef rejoined = ∅
     ∧ remoteStreams (store rejoined) !! "P" = Some (Some 7))
  ∧ (∀ rejects w,
       peerConnectionsRef (handle rejects StopViewing w) = ∅
       ∧ remoteStreams (store (handle rejects StopViewing w))
         = remoteStreams (store w)).
Proof.
  cbv zeta.
  repeat match goal with |- _ ∧ _ => split end;
    try (intros rejects w; unfold handle; rewrite exec_run, stopViewing_run;
         split; reflexivity);
    try (vm_compute; reflexivity);
    intros H; apply (f_equal (λ s, remoteStreams s !! "P")) in H;
    vm_compute in H; discriminate.
Qed.

(** C4, as stated, fails: a second capture replaces the first in the state
    and no track of the first is stopped, whether the capture is started by
    [initializeCamera] or by a second [startStreaming]. *)
Lemma camera_replaced_without_stop :
  let w := handle accepts_all (InitializeCamera (Some camera1)) initialWorld in
  let w' := handle accepts_all (InitializeCamera (Some camera2)) w in
  let w'' := handle accepts_all (StartStreaming "s2" (Some camera2)) streaming_s1 in
  localStream (store w) = Some camera1
  ∧ localStream (store w') = Some camera2
  ∧ trace w' = []
  ∧ localStream (store streaming_s1) = Some camera1
  ∧ localStream (store w'') = Some camera2
  ∧ trace w'' = [OpenSocket 0 "s1"; DisconnectSocket 0; OpenSocket 1 "s2"].
Proof. repeat split. Qed.

(** C7, as stated, fails: when the peer connection to "P" fails, the state
    holds 'failed', which is none of the five prescribed values. *)
Lemma connection_state_failed :
  let w := handle_all accepts_all failed_peer_events initialWorld in
  connectionState (store w) = "failed"
  ∧ "failed" ∉ spec_connection_states.
Proof.
  split; [reflexivity|].
  intros H. cbv in H.
  repeat (apply elem_of_cons in H as [H|H]; [discriminate|]).
  inversion H.
Qed.

(** * Further properties of the context *)

(** ** Remote streams in the reducer *)

(** X1. A remote stream added for a user is found under that user and is
    gone after the matching removal, which restores the map when the user
    had no entry before; entries of other users are touched by neither. *)
Theorem remote_stream_add_remove (state : State) (userId : option string)
    (stream : option nat) (other : string) :
  let added := webrtcReducer state (ADD_REMOTE_STREAM userId stream) in
  let removed := webrtcReducer added (REMOVE_REMOTE_STREAM userId) in
  remoteStreams added !! prop_key userId = Some stream
  ∧ remoteStreams removed !! prop_key userId = None
  ∧ (remoteStreams state !! prop_key userId = None →
     remoteStreams removed = remoteStreams state)
  ∧ (other ≠ prop_key userId →
     remoteStreams added !! other = remoteStreams state !! other
     ∧ remoteStreams removed !! other = remoteStreams state !! other).
Proof.
  intros added removed. subst added removed. simpl. repeat split.
  - apply lookup_insert_eq.
  - apply lookup_delete_eq.
  - intros Hfresh. rewrite delete_insert_eq. apply delete_id. exact Hfresh.
  - rewrite lookup_insert_ne by congruence. reflexivity.
  - rewrite lookup_delete_ne by congruence.
    rewrite lookup_insert_ne by congruence. reflexivity.
Qed.

(** ** What the router does with the other envelopes *)

Section Router.

Variable rejects : list Effect → Effect → bool.

Lemma eqb_acting (kind : string) :
kind ∉ acting_types →
String.eqb kind "offer" = false ∧ String.eqb kind "answer" = false
∧ String.eqb kind "ice_candidate" = false ∧ String.eqb kind "chat_message" = false
∧ String.eqb kind "stream_ended" = false ∧ String.eqb kind "error" = false.
Proof.
intros Hnot. repeat split; apply String.eqb_neq; intros ->; apply Hnot;
  unfold acting_types; repeat constructor.
Qed.

(** X2. Text that does not parse, and any envelope whose type is none of
  offer, answer, ice_candidate, chat_message, stream_ended and error
  (presence notices and unknown types included, well-formed or not), is
  dropped: the router returns normally and the state, the registry, the
  socket and the calls made are as before. *)
Theorem other_envelopes_only_log (state : State) (message : Incoming) (w : World) :
match message with
| Garbled => True
| Parsed m => in_type m ∉ acting_types
end →
let outcome := run (handleWebSocketMessage rejects state message) w in
outcome.1 = Ok ()
∧ store outcome.2 = store w
∧ peerConnectionsRef outcome.2 = peerConnectionsRef w
∧ socketRef outcome.2 = socketRef w
∧ fresh outcome.2 = fresh w
∧ trace outcome.2 = trace w.
Proof.
intros Hkind outcome. subst outcome.
destruct message as [|[kind sender payload]].
- repeat split.
- simpl in Hkind. destruct (eqb_acting kind Hkind) as (H1 & H2 & H3 & H4 & H5 & H6).
  unfold run, handleWebSocketMessage, parse, property.
  unfold try_catch, mbind, M_bind, mret, M_ret. simpl.
  rewrite H1, H2, H3, H4, H5, H6.
  destruct (String.eqb kind "user_joined");
    [destruct (get_prop payload "user_id"); repeat split|].
  destruct (String.eqb kind "user_left");
    [destruct (get_prop payload "user_id"); repeat split|].
  destruct (String.eqb kind "stream_started"); repeat split.
Qed.

(** X3. An 'error' envelope stores [data.message] as the session error
  ([undefined] when the payload has no such property) and changes nothing
  else; when the payload is [null] or [undefined] the envelope changes
  nothing at all in the state.  Either way the router returns normally and
  the registry, the socket and the calls made are as before. *)
Theorem error_envelope_sets_error (state : State) (sender : option string)
  (payload : jsval) (w : World) :
let outcome :=
  run (handleWebSocketMessage rejects state
         (Parsed {| in_type := "error"; sender_id := sender; in_data := payload |})) w in
outcome.1 = Ok ()
∧ store outcome.2
  = match payload with
    | VUndef | VNull => store w
    | VObj fields => webrtcReducer (store w) (SET_ERROR (assoc "message" fields))
    | _ => webrtcReducer (store w) (SET_ERROR VUndef)
    end
∧ peerConnectionsRef outcome.2 = peerConnectionsRef w
∧ socketRef outcome.2 = socketRef w
∧ trace outcome.2 = trace w.
Proof.
intros outcome. subst outcome.
unfold run, handleWebSocketMessage, parse, property.
unfold try_catch, mbind, M_bind, mret, M_ret. simpl.
destruct payload; simpl; repeat split.
Qed.

End Router.

(** ** The registry of peer connections *)

Section Registry.

Variable rejects : list Effect → Effect → bool.

Lemma registry_ok_bump (w : World) : registry_ok w → registry_ok (bump_fresh w).
Proof.
intros [Hkey Hinj]. split; [|exact Hinj].
intros key pc Hpc. destruct (Hkey key pc Hpc) as (H1 & H2 & H3).
simpl. repeat split; auto.
Qed.

Lemma registry_ok_delete (key : string) (w : World) :
registry_ok w → registry_ok (set_peers (delete key) w).
Proof.
intros [Hkey Hinj]. split; simpl.
- intros k pc Hpc. apply lookup_delete_Some in Hpc as [_ Hpc]. exact (Hkey k pc Hpc).
- intros k1 k2 pc1 pc2 H1 H2.
  apply lookup_delete_Some in H1 as [_ H1].
  apply lookup_delete_Some in H2 as [_ H2].
  exact (Hinj k1 k2 pc1 pc2 H1 H2).
Qed.

Lemma registry_ok_clear (w : World) : registry_ok (set_peers (λ _, ∅) w).
Proof.
split; simpl.
- intros key pc Hpc. rewrite lookup_empty in Hpc. discriminate.
- intros k1 k2 pc1 pc2 H1. rewrite lookup_empty in H1. discriminate.
Qed.

Lemma registry_get_absent (peers : gmap string PeerConnection) (userId : option string) :
registry_get peers userId = Absent → peers !! prop_key userId = None.
Proof.
unfold registry_get. destruct (peers !! prop_key userId); [discriminate|reflexivity].
Qed.

Lemma registry_get_own (peers : gmap string PeerConnection) (userId : option string)
  (pc : PeerConnection) :
registry_get peers userId = Own pc ↔ peers !! prop_key userId = Some pc.
Proof.
unfold registry_get. destruct (peers !! prop_key userId) as [pc'|].
- split; intros [= ->]; reflexivity.
- destruct (inherited_key (prop_key userId)); split; discriminate.
Qed.

Lemma createPeerConnection_registry_ok (state : State) (userId : option string) :
currentStreamId state = None →
preserves registry_ok (createPeerConnection rejects state userId).
Proof.
intros Hstream w Hok.
unfold createPeerConnection, mbind, M_bind, read, new_id, call, update. simpl.
destruct (registry_get (peerConnectionsRef w) userId) eqn:Hget; simpl; try exact Hok.
destruct (rejects (trace w) (NewPeerConnection (fresh w))); simpl.
{ apply registry_ok_bump, Hok. }
apply registry_get_absent in Hget.
destruct Hok as [Hkey Hinj]. split; simpl.
- intros key pc Hpc. apply lookup_insert_Some in Hpc as [[<- <-]|[Hne Hpc]].
  + simpl. repeat split; auto.
  + destruct (Hkey key pc Hpc) as (H1 & H2 & H3). repeat split; auto.
- intros k1 k2 pc1 pc2 H1 H2 Hid.
  apply lookup_insert_Some in H1 as [[<- <-]|[Hne1 H1]];
  apply lookup_insert_Some in H2 as [[<- <-]|[Hne2 H2]]; simpl in *.
  + reflexivity.
  + destruct (Hkey k2 pc2 H2) as (_ & Hlt & _). lia.
  + destruct (Hkey k1 pc1 H1) as (_ & Hlt & _). lia.
  + exact (Hinj k1 k2 pc1 pc2 H1 H2 Hid).
Qed.

Ltac unfold_handlers_but_create :=
unfold startStreaming, joinStream, stopStreaming, stopViewing, sendChatMessage,
  initializeCamera, getUserMedia, connectWebSocket, on_connect, on_disconnect,
  handleWebSocketMessage, handleRemoteOffer, handleRemoteAnswer,
  handleRemoteIceCandidate, cleanupPeerConnection,
  as_peer, onicecandidate, ontrack, onconnectionstatechange, close_all_peers,
  disconnect_socket, parse, property, on_socket, on_peer,
  dispatch, perform, console_log, console_error.

Ltac registry_prim :=
let w := fresh "w" in let H := fresh "H" in
intros w H;
first [ exact H
      | apply registry_ok_bump; exact H
      | apply registry_ok_delete; exact H
      | apply registry_ok_clear ].

Lemma handle_registry_ok (e : Event) (w : World) :
registry_ok w → registry_ok (handle rejects e w).
Proof.
intros H. destruct e; simpl; try exact H;
match goal with
| |- registry_ok (exec ?m w) =>
    cut (preserves registry_ok m); [intros Hp; exact (Hp w H)|]
end;
repeat first
  [ match goal with
    | |- preserves _ (createPeerConnection _ _ _) =>
        apply createPeerConnection_registry_ok; reflexivity
    end
  | preserves_step registry_prim
  | progress unfold_handlers_but_create ].
Qed.

Lemma reachable_registry_ok (w : World) : reachable rejects w → registry_ok w.
Proof.
apply reachable_invariant.
- split.
  + intros key pc Hpc. simpl in Hpc. rewrite lookup_empty in Hpc. discriminate.
  + intros k1 k2 pc1 pc2 H1. simpl in H1. rewrite lookup_empty in H1. discriminate.
- apply handle_registry_ok.
Qed.

(** X4. In every reachable world each peer connection of the registry is
  filed under the id of the user it was created for, and no two entries
  hold the same connection: a peer connection belongs to exactly one
  participant. *)
Theorem registry_one_connection_per_user (w : World) (key1 key2 : string)
  (pc1 pc2 : PeerConnection) :
reachable rejects w →
peerConnectionsRef w !! key1 = Some pc1 →
peerConnectionsRef w !! key2 = Some pc2 →
prop_key (pc_userId pc1) = key1
∧ (pc_id pc1 = pc_id pc2 → key1 = key2 ∧ pc1 = pc2).
Proof.
intros Hw H1 H2. destruct (reachable_registry_ok w Hw) as [Hkey Hinj].
split; [apply (Hkey key1 pc1 H1)|].
intros Hid. assert (key1 = key2) as <- by exact (Hinj _ _ _ _ H1 H2 Hid).
split; [reflexivity | congruence].
Qed.

End Registry.

(** ** Events of a peer connection *)

Section PeerEvents.

Variable rejects : list Effect → Effect → bool.

(** X5. When a peer connection of a reachable world reports 'failed' or
  'closed', it is closed, its registry entry and the remote stream filed
  under the same user are removed, and nothing else is torn down; the
  state's [connectionState] takes the reported value.  Any other reported
  value only overwrites [connectionState].  A second report for a removed
  connection finds no one to deliver to and changes nothing. *)
Theorem peer_state_change_teardown (w : World) (key : string) (pc : PeerConnection)
  (s : RTCPeerConnectionState) :
reachable rejects w →
peerConnectionsRef w !! key = Some pc →
let w' := handle rejects (PeerConnectionState key s) w in
connectionState (store w') = pc_state_name s
∧ socketRef w' = socketRef w
∧ match s with
  | PcFailed | PcClosed =>
      peerConnectionsRef w' = delete key (peerConnectionsRef w)
      ∧ remoteStreams (store w') = delete key (remoteStreams (store w))
      ∧ trace w' = trace w ++ [ClosePeer (pc_id pc)]
      ∧ handle rejects (PeerConnectionState key s) w' = w'
  | _ =>
      peerConnectionsRef w' = peerConnectionsRef w
      ∧ remoteStreams (store w') = remoteStreams (store w)
      ∧ trace w' = trace w
  end.
Proof.
intros Hw Hpc w'. subst w'.
destruct (reachable_registry_ok rejects w Hw) as [Hkey _].
destruct (Hkey key pc Hpc) as (Huser & _ & _).
assert (Hget : registry_get (peerConnectionsRef w) (pc_userId pc) = Own pc).
{ apply registry_get_own. rewrite Huser. exact Hpc. }
unfold handle, exec, on_peer, onconnectionstatechange, cleanupPeerConnection.
unfold mbind, M_bind, read, console_log, dispatch, perform, update. simpl.
rewrite Hpc. simpl.
destruct s; simpl; repeat split;
  rewrite ?Hget; simpl; rewrite ?Huser; try reflexivity;
  rewrite lookup_delete_eq; reflexivity.
Qed.

(** X6. Media arriving on a peer connection of a reachable world is filed in
  [remoteStreams] under that connection's user: the first stream of the
  event, or [undefined] when the event carries none.  The entries of other
  users, the registry and the calls made are untouched. *)
Theorem remote_track_is_filed (w : World) (key : string) (pc : PeerConnection)
  (streams : list nat) :
reachable rejects w →
peerConnectionsRef w !! key = Some pc →
let w' := handle rejects (PeerTrack key streams) w in
remoteStreams (store w') = <[key := head streams]> (remoteStreams (store w))
∧ peerConnectionsRef w' = peerConnectionsRef w
∧ socketRef w' = socketRef w
∧ trace w' = trace w
∧ connectionState (store w') = connectionState (store w)
∧ chatMessages (store w') = chatMessages (store w).
Proof.
intros Hw Hpc w'. subst w'.
destruct (reachable_registry_ok rejects w Hw) as [Hkey _].
destruct (Hkey key pc Hpc) as (Huser & _ & _).
unfold handle, exec, on_peer, ontrack.
unfold mbind, M_bind, read, console_log, dispatch, update. simpl.
rewrite Hpc. simpl. rewrite Huser. repeat split.
Qed.

(** X7. A candidate discovered on a peer connection of a reachable world is
  sent at once, as one 'ice_candidate' envelope addressed to that
  connection's user; its stream id is the one the connection closed over
  at creation, which is always [null].  The end-of-candidates event
  ([candidate] null), or a candidate found while no socket is held, sends
  nothing and changes nothing. *)
Theorem ice_candidate_is_forwarded (w : World) (key : string) (pc : PeerConnection)
  (candidate : option jsval) :
reachable rejects w →
peerConnectionsRef w !! key = Some pc →
handle rejects (PeerIceCandidate key candidate) w
= match candidate, socketRef w with
  | Some c, Some s =>
      record_effect
        (Emit (sock_id s)
           {| type := "ice_candidate"; data := DCandidate c;
              target_id := pc_userId pc; stream_id := None |}) w
  | _, _ => w
  end
∧ prop_key (pc_userId pc) = key.
Proof.
intros Hw Hpc.
destruct (reachable_registry_ok rejects w Hw) as [Hkey _].
destruct (Hkey key pc Hpc) as (Huser & _ & Hstream).
split; [|exact Huser].
unfold handle, exec, on_peer, onicecandidate.
unfold mbind, M_bind, read, perform, update. simpl.
rewrite Hpc. simpl. rewrite Hstream.
destruct candidate as [c|], (socketRef w) as [s|]; simpl;
  try reflexivity; destruct w; reflexivity.
Qed.

End PeerEvents.

(** ** Offers, for any sender *)

Section Offers.

Variable rejects : list Effect → Effect → bool.

(** X8. With a socket held and every browser call accepted, an offer that
  reaches the router from a sender whose id is not the name of a property
  of [Object.prototype] ('constructor', 'toString', '__proto__', ...) is
  answered in one fixed sequence of calls: a peer connection is created
  only when the sender has none, the offer is applied, the answer is
  created and applied, and one 'answer' envelope goes to the sender.
  Whatever the session state holds, no track is attached and the
  envelope's stream id is [null]; the state itself is not changed.  An
  offer from a sender named like such a property is not answered. *)
Theorem offer_is_answered (w : World) (s : Socket) (sender : option string)
  (payload : jsval) :
(∀ tr e, rejects tr e = false) →
socketRef w = Some s →
inherited_key (prop_key sender) = false →
let w' := handle rejects
            (SocketMessage (Parsed {| in_type := "offer"; sender_id := sender;
                                      in_data := payload |})) w in
let known := peerConnectionsRef w !! prop_key sender in
let n := from_option pc_id (fresh w) known in
trace w' =
  trace w
  ++ match known with Some _ => [] | None => [NewPeerConnection n] end
  ++ [ SetRemoteDescription n payload; CreateAnswer n; SetLocalDescription n;
       Emit (sock_id s) {| type := "answer"; data := DAnswer n;
                           target_id := sender; stream_id := None |} ]
∧ pc_id <$> (peerConnectionsRef w' !! prop_key sender) = Some n
∧ store w' = store w.
Proof.
intros Hacc Hs Hkey w' known n. subst w' known n.
destruct (peerConnectionsRef w !! prop_key sender) as [pc|] eqn:Hpc.
- pose proof (handleRemoteOffer_reuses rejects mountState
                {| in_type := "offer"; sender_id := sender; in_data := payload |}
                pc s w Hacc Hs Hpc) as Hrun.
  unfold run in Hrun.
  unfold handle, exec, on_socket, mbind, M_bind, read. simpl. rewrite Hs.
  unfold handleWebSocketMessage, parse, try_catch, mbind, M_bind, mret, M_ret.
  simpl. rewrite Hrun. simpl. rewrite Hpc. repeat split.
- pose proof (handleRemoteOffer_creates rejects mountState
                {| in_type := "offer"; sender_id := sender; in_data := payload |}
                s w Hacc Hs Hpc Hkey) as Hrun.
  unfold run in Hrun.
  unfold handle, exec, on_socket, mbind, M_bind, read. simpl. rewrite Hs.
  unfold handleWebSocketMessage, parse, try_catch, mbind, M_bind, mret, M_ret.
  simpl. rewrite Hrun. simpl. rewrite lookup_insert_eq. repeat split.
Qed.

(** X9. When the browser rejects the description of an offer from a new
  sender, no answer is sent and the error is logged, but the peer
  connection created for the sender stays in the registry: a later offer
  from the same sender will reuse it. *)
Theorem rejected_offer_keeps_peer (w : World) (s : Socket) (sender : option string)
  (payload : jsval) :
socketRef w = Some s →
peerConnectionsRef w !! prop_key sender = None →
inherited_key (prop_key sender) = false →
rejects (trace w) (NewPeerConnection (fresh w)) = false →
rejects (trace w ++ [NewPeerConnection (fresh w)])
  (SetRemoteDescription (fresh w) payload) = true →
let w' := handle rejects
            (SocketMessage (Parsed {| in_type := "offer"; sender_id := sender;
                                      in_data := payload |})) w in
peerConnectionsRef w' =
  <[prop_key sender := {| pc_id := fresh w; pc_userId := sender;
                          pc_streamId := None |}]> (peerConnectionsRef w)
∧ trace w' = trace w ++ [NewPeerConnection (fresh w)]
∧ console w' = console w ++ ["Error handling remote offer:"]
∧ store w' = store w.
Proof.
intros Hs Hpc Hkey Hnew Hdesc w'. subst w'.
destruct w as [st sock peers video n tr con]. simpl in *. subst sock.
unfold handle, exec, on_socket, handleWebSocketMessage, handleRemoteOffer,
  createPeerConnection, as_peer, parse, registry_get, call.
unfold_prims. simpl.
rewrite Hpc, Hkey. simpl. rewrite Hnew. simpl. rewrite Hdesc. simpl.
repeat split.
Qed.

End Offers.

(** ** The session API *)

Section SessionApi.

Variable rejects : list Effect → Effect → bool.

Lemma joinStream_run (streamId : string) (w : World) :
run (joinStream streamId) w
= (Ok (),
   {| store :=
        webrtcReducer
          (webrtcReducer
             (webrtcReducer (webrtcReducer (store w) (SET_ERROR VNull)) CLEAR_CHAT)
             (SET_VIEWING true))
          (SET_CONNECTION_STATE "connecting");
      socketRef := Some {| sock_id := fresh w; sock_streamId := streamId |};
      peerConnectionsRef := peerConnectionsRef w;
      localVideoRef := localVideoRef w;
      fresh := S (fresh w);
      trace := trace w ++ disconnect_held w ++ [OpenSocket (fresh w) streamId];
      console := console w |}).
Proof.
unfold run, joinStream, connectWebSocket, disconnect_held. unfold_prims.
destruct w as [st [old|] peers video n tr con]; simpl;
  rewrite <- ?app_assoc; reflexivity.
Qed.

Lemma startStreaming_run (streamId : string) (stream : MediaStream) (w : World) :
run (startStreaming streamId (Some stream)) w
= (Ok stream,
   {| store :=
        webrtcReducer
          (webrtcReducer
             (webrtcReducer (webrtcReducer (store w) (SET_ERROR VNull))
                (SET_LOCAL_STREAM (Some stream)))
             (SET_STREAMING true))
          (SET_CONNECTION_STATE "connecting");
      socketRef := Some {| sock_id := fresh w; sock_streamId := streamId |};
      peerConnectionsRef := peerConnectionsRef w;
      localVideoRef := localVideoRef w;
      fresh := S (fresh w);
      trace := trace w ++ preview_of stream w ++ disconnect_held w
               ++ [OpenSocket (fresh w) streamId];
      console := console w |}).
Proof.
unfold run, startStreaming, initializeCamera, getUserMedia, connectWebSocket,
  disconnect_held, preview_of.
unfold_prims.
destruct w as [st [old|] peers [|] n tr con]; simpl;
  rewrite <- ?app_assoc; reflexivity.
Qed.

Lemma handle_StopStreaming (w : World) :
handle rejects StopStreaming w = (run (stopStreaming (store w)) w).2.
Proof. reflexivity. Qed.

(** X10. [joinStream] never fails.  It disconnects the socket held, if any,
  before opening a new one for the stream, clears the error and the chat
  log and marks the session as viewing and connecting.  It leaves the
  local media, the streaming flag, the current stream id, the remote
  streams and the registry as they were: peer connections of an earlier
  session are not closed. *)
Theorem joinStream_opens_channel (streamId : string) (w : World) :
let outcome := run (joinStream streamId) w in
outcome.1 = Ok ()
∧ socketRef outcome.2 = Some {| sock_id := fresh w; sock_streamId := streamId |}
∧ trace outcome.2 = trace w ++ disconnect_held w ++ [OpenSocket (fresh w) streamId]
∧ peerConnectionsRef outcome.2 = peerConnectionsRef w
∧ (isViewing (store outcome.2) = true
   ∧ connectionState (store outcome.2) = "connecting"
   ∧ chatMessages (store outcome.2) = []
   ∧ error (store outcome.2) = VNull
   ∧ localStream (store outcome.2) = localStream (store w)
   ∧ isStreaming (store outcome.2) = isStreaming (store w)
   ∧ remoteStreams (store outcome.2) = remoteStreams (store w)
   ∧ currentStreamId (store outcome.2) = currentStreamId (store w)).
Proof.
intros outcome. subst outcome. rewrite joinStream_run. repeat split.
Qed.

(** X11. When the camera cannot be acquired, [initializeCamera] and
  [startStreaming] both throw, and [startStreaming] stops there: no socket
  is opened or disconnected, the streaming flag and [connectionState] are
  not set, and the local media handle is the one of before.  The error of
  the state names the camera for [initializeCamera] and the failed start
  for [startStreaming]. *)
Theorem camera_failure_starts_nothing (streamId : string) (w : World) :
let camera := run (initializeCamera None) w in
let start := run (startStreaming streamId None) w in
camera.1 = Thrown
∧ store camera.2
  = webrtcReducer (store w) (SET_ERROR (VStr "Failed to access camera/microphone"))
∧ trace camera.2 = trace w
∧ start.1 = Thrown
∧ store start.2 = webrtcReducer (store w) (SET_ERROR (VStr "Failed to start streaming"))
∧ socketRef start.2 = socketRef w
∧ peerConnectionsRef start.2 = peerConnectionsRef w
∧ fresh start.2 = fresh w
∧ trace start.2 = trace w.
Proof.
intros camera start. subst camera start.
unfold run, startStreaming, initializeCamera, getUserMedia. unfold_prims.
simpl. repeat split.
Qed.

(** X12. When the camera is acquired, [startStreaming] returns the stream,
  stores it as the local media handle, disconnects the socket held, if
  any, before opening a new one for the stream, clears the error and marks
  the session as streaming and connecting.  Unlike [joinStream] it keeps
  the chat log; like it, it leaves the current stream id, the remote
  streams and the registry as they were. *)
Theorem startStreaming_opens_channel (streamId : string) (stream : MediaStream)
  (w : World) :
let outcome := run (startStreaming streamId (Some stream)) w in
outcome.1 = Ok stream
∧ socketRef outcome.2 = Some {| sock_id := fresh w; sock_streamId := streamId |}
∧ trace outcome.2
  = trace w ++ preview_of stream w ++ disconnect_held w
    ++ [OpenSocket (fresh w) streamId]
∧ peerConnectionsRef outcome.2 = peerConnectionsRef w
∧ (localStream (store outcome.2) = Some stream
   ∧ isStreaming (store outcome.2) = true
   ∧ connectionState (store outcome.2) = "connecting"
   ∧ error (store outcome.2) = VNull
   ∧ chatMessages (store outcome.2) = chatMessages (store w)
   ∧ isViewing (store outcome.2) = isViewing (store w)
   ∧ remoteStreams (store outcome.2) = remoteStreams (store w)
   ∧ currentStreamId (store outcome.2) = currentStreamId (store w)).
Proof.
intros outcome. subst outcome. rewrite startStreaming_run. repeat split.
Qed.

(** X13. Stopping a stream that was just started releases what the start
  acquired: every track of the captured stream is stopped, then every
  peer connection of the registry is closed, in the order of
  [Object.values] (the connections filed under integer-like keys first,
  by ascending key, then the others in the order of their creation), and
  the registry emptied, then the socket the start opened is disconnected.
  The state is reset, but it still holds the handle of the stream whose
  tracks were stopped. *)
Theorem start_then_stop_releases (streamId : string) (stream : MediaStream)
  (w : World) :
let started := handle rejects (StartStreaming streamId (Some stream)) w in
let stopped := handle rejects StopStreaming started in
trace stopped
= trace started
  ++ (StopTrack <$> getTracks stream)
  ++ ((λ pc, ClosePeer (pc_id pc)) <$> registry_values (peerConnectionsRef w))
  ++ [DisconnectSocket (fresh w)]
∧ peerConnectionsRef stopped = ∅
∧ localStream (store stopped) = Some stream
∧ isStreaming (store stopped) = false
∧ isConnected (store stopped) = false
∧ connectionState (store stopped) = "disconnected".
Proof.
intros started stopped. subst stopped started.
rewrite !handle_StopStreaming, stopStreaming_run. simpl.
unfold closing_calls, handle. rewrite !exec_run, startStreaming_run. simpl.
repeat split.
Qed.

(** X14. After [stopStreaming] or [stopViewing], [sendChatMessage] sends
  nothing and changes nothing, although the socket reference is still
  held. *)
Theorem chat_after_stop_is_dropped (text : jsstring) (w : World) :
handle rejects (SendChatMessage text) (handle rejects StopStreaming w)
= handle rejects StopStreaming w
∧ handle rejects (SendChatMessage text) (handle rejects StopViewing w)
  = handle rejects StopViewing w
∧ socketRef (handle rejects StopStreaming w) = socketRef w
∧ socketRef (handle rejects StopViewing w) = socketRef w.
Proof.
rewrite !handle_StopStreaming, stopStreaming_run.
unfold handle. rewrite !exec_run, stopViewing_run. simpl.
unfold run, with_render, sendChatMessage, mbind, M_bind, read. simpl.
destruct (socketRef w); repeat split.
Qed.

End SessionApi.

(** ** What holds in every reachable world *)

Section Everywhere.

Variable rejects : list Effect → Effect → bool.

Lemma handler_handle (e : Event) (w : World) :
handle rejects e w = (run (handler rejects e) w).2.
Proof.
destruct e; try reflexivity; unfold handle, handler, exec, run, discard;
  match goal with |- (?m w).2 = _ => destruct (m w) as [[?|] ?] end; reflexivity.
Qed.

(** X15. The local media handle changes only when a capture succeeds, and
  then it is the captured stream: no other call or event sets, replaces or
  clears it, [stopStreaming] included. *)
Theorem local_stream_changes_only_on_capture (e : Event) (w : World) :
localStream (store (handle rejects e w))
= match e with
  | StartStreaming _ (Some stream) | InitializeCamera (Some stream) => Some stream
  | _ => localStream (store w)
  end.
Proof.
destruct e as [streamId [stream|] | | | | | [stream|] | | | | | | | ];
  first
    [ solve [reflexivity]
    | solve [rewrite handle_StopStreaming, stopStreaming_run; reflexivity]
    | solve [unfold handle; rewrite exec_run, stopViewing_run; reflexivity]
    | solve [unfold handle; rewrite exec_run, initializeCamera_run; reflexivity]
    | solve [unfold handle; rewrite exec_run, startStreaming_run; reflexivity]
    | solve [unfold handle, exec, with_render, sendChatMessage, mbind, M_bind, read;
             simpl; destruct (socketRef w); simpl;
             [destruct (isConnected (store w))|]; reflexivity]
    | unfold handle;
      match goal with
      | |- localStream (store (exec ?m w)) = ?x =>
          cut (preserves (λ w', localStream (store w') = x) m);
          [intros Hp; exact (Hp w eq_refl)|]
      end;
      preserves_auto ltac:(intros ? ?; simpl; assumption) ].
Qed.

Lemma on_peer_cleanup_ok (w : World) (key : string) (pc : PeerConnection) :
registry_ok w →
peerConnectionsRef w !! key = Some pc →
registry_get (peerConnectionsRef w) (pc_userId pc) = Own pc.
Proof.
intros [Hkey _] Hpc. destruct (Hkey key pc Hpc) as (Huser & _ & _).
apply registry_get_own. rewrite Huser. exact Hpc.
Qed.

(** X16. In a reachable world no handler of a socket or peer-connection
  event ever throws, whatever arrives and whatever the browser rejects,
  and of the calls of the session API only [startStreaming] and
  [initializeCamera] do, exactly when the camera cannot be acquired. *)
Theorem only_camera_failure_throws (e : Event) (w : World) :
reachable rejects w →
(run (handler rejects e) w).1
= match e with
  | StartStreaming _ None | InitializeCamera None => Thrown
  | _ => Ok ()
  end.
Proof.
intros Hw. apply reachable_registry_ok in Hw.
destruct e as [streamId [stream|] | streamId | | | text | [stream|] | attached
              | | | message | key candidate | key streams | key s ];
  unfold handler, run.
- unfold discard. fold (run (startStreaming streamId (Some stream)) w).
  rewrite startStreaming_run. reflexivity.
- reflexivity.
- fold (run (joinStream streamId) w). rewrite joinStream_run. reflexivity.
- unfold with_render. fold (run (stopStreaming (store w)) w).
  rewrite stopStreaming_run. reflexivity.
- fold (run stopViewing w). rewrite stopViewing_run. reflexivity.
- unfold with_render, sendChatMessage, mbind, M_bind, read. simpl.
  destruct (socketRef w); simpl; [destruct (isConnected (store w))|]; reflexivity.
- unfold discard. fold (run (initializeCamera (Some stream)) w).
  rewrite initializeCamera_run. reflexivity.
- reflexivity.
- reflexivity.
- unfold on_socket, mbind, M_bind, read. simpl. destruct (socketRef w); reflexivity.
- unfold on_socket, mbind, M_bind, read. simpl. destruct (socketRef w); reflexivity.
- unfold on_socket, mbind, M_bind, read. simpl.
  destruct (socketRef w); [|reflexivity].
  unfold handleWebSocketMessage, try_catch.
  match goal with |- (match ?b with _ => _ end).1 = _ => destruct b as [[[]|] ?] end;
    reflexivity.
- unfold on_peer, onicecandidate, mbind, M_bind, read. simpl.
  destruct (peerConnectionsRef w !! key); [|reflexivity].
  destruct candidate, (socketRef w); reflexivity.
- unfold on_peer, mbind, M_bind, read. simpl.
  destruct (peerConnectionsRef w !! key); reflexivity.
- unfold on_peer, onconnectionstatechange, cleanupPeerConnection.
  unfold mbind, M_bind, read, console_log, dispatch, perform, update. simpl.
  destruct (peerConnectionsRef w !! key) as [pc|] eqn:Hpc; [|reflexivity].
  simpl. destruct s; simpl; try reflexivity;
    rewrite (on_peer_cleanup_ok w key pc Hw Hpc); reflexivity.
Qed.

(** X17. A chat message that arrives in a reachable world becomes the last
  entry of the log; the entries before it keep their order, and when the
  log already holds 100 entries exactly the oldest one is dropped.  The
  registry and the calls made are untouched. *)
Theorem inbound_chat_is_appended (w : World) (s : Socket) (payload : jsval) :
reachable rejects w →
socketRef w = Some s →
let w' := handle rejects (SocketMessage (chat_from payload)) w in
chatMessages (store w')
= (if decide (length (chatMessages (store w)) = 100)
   then drop 1 (chatMessages (store w))
   else chatMessages (store w)) ++ [payload]
∧ length (chatMessages (store w')) ≤ 100
∧ peerConnectionsRef w' = peerConnectionsRef w
∧ trace w' = trace w.
Proof.
intros Hw Hs w'. subst w'.
pose proof (reachable_chat_bounded rejects w Hw) as Hlen.
unfold handle, exec, on_socket, mbind, M_bind, read. simpl. rewrite Hs. simpl.
split; [|split; [rewrite slice_last_length; lia | split; reflexivity]].
unfold slice_last. rewrite length_app. simpl.
destruct (decide (length (chatMessages (store w)) = 100)) as [Hfull|Hroom].
- rewrite Hfull. simpl. rewrite drop_app_le by lia. reflexivity.
- replace (length (chatMessages (store w)) + 1 - 100) with 0 by lia. reflexivity.
Qed.

Lemma handle_connected_has_stream (e : Event) (w : World) :
connected_has_stream w → connected_has_stream (handle rejects e w).
Proof.
intros H. destruct e; simpl; try exact H;
try (match goal with
     | |- connected_has_stream (exec ?m w) =>
         cut (preserves connected_has_stream m); [intros Hp; exact (Hp w H)|]
     end;
     preserves_auto ltac:(intros ? ?; unfold connected_has_stream in *; simpl;
                          first [assumption | discriminate]);
     fail).
unfold exec, on_socket, on_connect, mbind, M_bind, read. simpl.
destruct (socketRef w) as [s|]; simpl; [|exact H].
intros _. simpl. eexists. reflexivity.
Qed.

(** X18. In every reachable world a session marked connected holds a socket
  and knows a current stream id, so every chat message it sends carries
  one. *)
Theorem connected_session_is_bound (w : World) :
reachable rejects w →
isConnected (store w) = true →
is_Some (socketRef w) ∧ is_Some (currentStreamId (store w)).
Proof.
intros Hw Hconn. split.
- pose proof (reachable_connected_has_socket rejects w Hw) as Hsock.
  unfold connected_has_socket in Hsock.
  destruct (socketRef w); [eexists; reflexivity|].
  rewrite (Hsock eq_refl) in Hconn. discriminate.
- revert Hconn. revert w Hw.
  apply (reachable_invariant rejects connected_has_stream).
  + intros H. discriminate.
  + apply handle_connected_has_stream.
Qed.

End Everywhere.

(** ** Access predicates of the authentication context *)

Lemma table_get_owner (role name : string) (permissions : list string)
    (permission : string) :
  (name, permissions) ∈ rolePermissions →
  permission ∈ permissions →
  match table_get role rolePermissions with
  | Some listed => bool_decide (permission ∈ listed) = bool_decide (role = name)
  | None => role ≠ name
  end.
Proof.
  intros Hrow Hperm. unfold rolePermissions in Hrow.
  repeat (apply elem_of_cons in Hrow as [Hrow|Hrow]);
    [injection Hrow as -> -> ..|inversion Hrow];
    repeat (apply elem_of_cons in Hperm as [->|Hperm]); try (inversion Hperm; fail);
    unfold rolePermissions, table_get;
    repeat match goal with
           | |- context [String.eqb role ?x] =>
               destruct (String.eqb_spec role x) as [->|?]
           end;
    try (rewrite bool_decide_eq_true_2 by reflexivity);
    try (rewrite (bool_decide_eq_false_2 (_ = _)) by congruence);
    try congruence;
    vm_compute; reflexivity.
Qed.

(** X19. Permissions follow single roles, not a hierarchy: for a user whose
    roles name no property of [Object.prototype], a permission of the table
    is granted exactly when the user holds the one role that lists it, so
    an administrator has the six admin permissions and no other.  A user
    without roles, or nobody logged in, has no permission. *)
Theorem hasPermission_follows_owning_role (u : User) (held : list string)
    (name : string) (permissions : list string) (permission : string) :
  roles u = Some held →
  Forall (λ role, inherited_key role = false) held →
  (name, permissions) ∈ rolePermissions →
  permission ∈ permissions →
  hasPermission (Some u) permission = Some (hasRole (Some u) name)
  ∧ hasPermission None permission = Some false
  ∧ hasPermission (Some {| roles := None;
                           subscription_tier := subscription_tier u;
                           model_verification_status := model_verification_status u |})
      permission = Some false.
Proof.
  intros Hroles Hplain Hrow Hperm.
  split; [|split; reflexivity].
  unfold hasPermission, hasRole. rewrite Hroles. clear Hroles.
  induction Hplain as [|role rest Hrole _ IH]; [reflexivity|].
  cbn [permitted_by].
  pose proof (table_get_owner role name permissions permission Hrow Hperm) as Hown.
  destruct (table_get role rolePermissions) as [listed|].
  - rewrite Hown. destruct (decide (role = name)) as [->|Hne].
    + rewrite bool_decide_eq_true_2 by reflexivity.
      rewrite bool_decide_eq_true_2 by (apply elem_of_cons; left; reflexivity).
      reflexivity.
    + rewrite bool_decide_eq_false_2 by exact Hne. rewrite IH.
      f_equal. apply bool_decide_ext. rewrite elem_of_cons. split; [tauto|].
      intros [->|H]; [congruence|exact H].
  - rewrite Hrole, IH.
    f_equal. apply bool_decide_ext. rewrite elem_of_cons. split; [tauto|].
    intros [->|H]; [congruence|exact H].
Qed.

(** X20. Who may open a stream: nobody logged in sees exactly the public
    streams; an administrator sees every stream, of whatever type; every
    logged-in user sees the public ones; whoever may see premium streams
    may see private ones; and a type other than public, private and premium
    is closed to everyone but administrators. *)
Theorem canAccessStream_rules (user : option User) (streamType : string) :
  (canAccessStream None streamType = true ↔ streamType = "public")
  ∧ (hasRole user "admin" = true → canAccessStream user streamType = true)
  ∧ (is_Some user → canAccessStream user "public" = true)
  ∧ (canAccessStream user "premium" = true → canAccessStream user "private" = true)
  ∧ (hasRole user "admin" = false →
     streamType ∉ ["public"; "private"; "premium"] →
     canAccessStream user streamType = false).
Proof.
  repeat split.
  - simpl. apply String.eqb_eq.
  - simpl. intros ->. reflexivity.
  - intros Hadmin. destruct user as [u|]; [|discriminate].
    unfold canAccessStream. rewrite Hadmin. reflexivity.
  - intros [u ->]. unfold canAccessStream. destruct (hasRole (Some u) "admin"); reflexivity.
  - destruct user as [u|]; [|discriminate].
    unfold canAccessStream. destruct (hasRole (Some u) "admin"); [reflexivity|].
    simpl. intros ->. reflexivity.
  - intros Hadmin Hother. destruct user as [u|].
    + unfold canAccessStream. rewrite Hadmin.
      destruct (String.eqb_spec streamType "public") as [->|_];
        [exfalso; apply Hother; repeat constructor|].
      destruct (String.eqb_spec streamType "private") as [->|_];
        [exfalso; apply Hother; repeat constructor|].
      destruct (String.eqb_spec streamType "premium") as [->|_];
        [exfalso; apply Hother; repeat constructor|].
      reflexivity.
    + simpl. apply String.eqb_neq. intros ->. apply Hother. repeat constructor.
Qed.

(** ** The chat forms *)

(** X21. Submitting the chat form never sends an empty message: blank text
    (nothing but white space) and text submitted while the component is not
    viewing, respectively streaming, send nothing and stay in the input.
    Any other text is cleared from the input, and at most one envelope is
    sent, whose content is the trimmed, non-empty text; when the session is
    not connected the text is cleared although nothing was sent. *)
Theorem chat_form_never_sends_blank (active : bool) (state : State)
    (text : jsstring) (w : World) :
  let outcome := run (handleSendChat active state text) w in
  store outcome.2 = store w
  ∧ (trace outcome.2 = trace w
     ∨ ∃ sock, trace outcome.2
               = trace w ++ [Emit sock {| type := "chat_message";
                                         data := DChat (trim text);
                                         target_id := None;
                                         stream_id := currentStreamId state |}]
               ∧ trim text ≠ [] ∧ active = true ∧ isConnected state = true)
  ∧ outcome.1 = Ok (if bool_decide (trim text = []) || negb active then text else [])
  ∧ (isConnected state = false → outcome.2 = w).
Proof.
  intros outcome. subst outcome.
  unfold run, handleSendChat, sendChatMessage, mbind, M_bind, mret, M_ret, read.
  destruct (trim text) as [|c rest] eqn:Htrim; simpl.
  { repeat split; auto. }
  destruct active; simpl; [|repeat split; auto].
  destruct (socketRef w) as [s|] eqn:Hs; simpl; [|repeat split; auto].
  destruct (isConnected state) eqn:Hconn; simpl.
  - unfold perform, update. simpl. repeat split; [|discriminate].
    right. exists (sock_id s). repeat split. discriminate.
  - repeat split; auto.
Qed.

(** ** Nothing opened is lost *)

Section Accounting.

Variable rejects : list Effect → Effect → bool.

Lemma sockets_accounted_effect (e : Effect) (w : World) :
(∀ n streamId, e ≠ OpenSocket n streamId) →
sockets_accounted w → sockets_accounted (record_effect e w).
Proof.
intros Hother H n streamId Hin. simpl in *.
apply elem_of_app in Hin as [Hin|Hin].
- destruct (H n streamId Hin) as [Hs|Hd]; [left; exact Hs|].
  right. apply elem_of_app. left. exact Hd.
- apply list_elem_of_singleton in Hin. exfalso. exact (Hother n streamId (eq_sym Hin)).
Qed.

Lemma sockets_accounted_reconnect (streamId : string) (w w' : World) :
sockets_accounted w →
socketRef w' = Some {| sock_id := fresh w; sock_streamId := streamId |} →
(∃ before, (∀ n sid, OpenSocket n sid ∉ before)
   ∧ trace w' = trace w ++ before ++ disconnect_held w ++ [OpenSocket (fresh w) streamId]) →
sockets_accounted w'.
Proof.
intros H Hs (before & Hbefore & Htrace) n sid Hin. rewrite Htrace in Hin |- *. rewrite Hs.
apply elem_of_app in Hin as [Hin|Hin].
- destruct (H n sid Hin) as [Hheld|Hd].
  + right. unfold disconnect_held. rewrite Hheld.
    apply elem_of_app. right. apply elem_of_app. right.
    apply elem_of_app. left. apply list_elem_of_singleton. reflexivity.
  + right. apply elem_of_app. left. exact Hd.
- apply elem_of_app in Hin as [Hin|Hin]; [exfalso; exact (Hbefore n sid Hin)|].
  apply elem_of_app in Hin as [Hin|Hin].
  + unfold disconnect_held in Hin. destruct (socketRef w);
      [apply list_elem_of_singleton in Hin; discriminate | inversion Hin].
  + apply list_elem_of_singleton in Hin. injection Hin as -> ->. left. reflexivity.
Qed.

Ltac sockets_prim :=
let w := fresh "w" in let H := fresh "H" in
intros w H;
first [ exact H
      | apply sockets_accounted_effect; [intros; discriminate | exact H] ].

Lemma handle_sockets_accounted (e : Event) (w : World) :
sockets_accounted w → sockets_accounted (handle rejects e w).
Proof.
intros H.
destruct e as [streamId [stream|] | streamId | | | text | camera | attached
              | | | message | key candidate | key streams | key s ].
- unfold handle. rewrite exec_run, startStreaming_run.
  apply (sockets_accounted_reconnect streamId w); [exact H | reflexivity |].
  exists (preview_of stream w). split; [|reflexivity].
  intros n sid Hin. unfold preview_of in Hin.
  destruct (localVideoRef w);
    [apply list_elem_of_singleton in Hin; discriminate | inversion Hin].
- exact H.
- unfold handle. rewrite exec_run, joinStream_run.
  apply (sockets_accounted_reconnect streamId w); [exact H | reflexivity |].
  exists []. split; [intros n sid Hin; inversion Hin | reflexivity].
- simpl. cut (preserves sockets_accounted (with_render stopStreaming));
    [intros Hp; exact (Hp w H)|]. preserves_auto sockets_prim.
- simpl. cut (preserves sockets_accounted stopViewing);
    [intros Hp; exact (Hp w H)|]. preserves_auto sockets_prim.
- simpl. cut (preserves sockets_accounted
                (with_render (λ state, sendChatMessage state text)));
    [intros Hp; exact (Hp w H)|]. preserves_auto sockets_prim.
- simpl. cut (preserves sockets_accounted (initializeCamera camera));
    [intros Hp; exact (Hp w H)|]. preserves_auto sockets_prim.
- exact H.
- simpl. cut (preserves sockets_accounted (on_socket on_connect));
    [intros Hp; exact (Hp w H)|]. preserves_auto sockets_prim.
- simpl. cut (preserves sockets_accounted (on_socket (λ _, on_disconnect)));
    [intros Hp; exact (Hp w H)|]. preserves_auto sockets_prim.
- simpl. cut (preserves sockets_accounted
                (on_socket (λ _, handleWebSocketMessage rejects mountState message)));
    [intros Hp; exact (Hp w H)|]. preserves_auto sockets_prim.
- simpl. cut (preserves sockets_accounted
                (on_peer key (λ pc, onicecandidate pc candidate)));
    [intros Hp; exact (Hp w H)|]. preserves_auto sockets_prim.
- simpl. cut (preserves sockets_accounted (on_peer key (λ pc, ontrack pc streams)));
    [intros Hp; exact (Hp w H)|]. preserves_auto sockets_prim.
- simpl. cut (preserves sockets_accounted
                (on_peer key (λ pc, onconnectionstatechange pc s)));
    [intros Hp; exact (Hp w H)|]. preserves_auto sockets_prim.
Qed.

(** X22. At most one signalling socket is live: in every reachable world
  each socket that was ever opened either is the one the provider holds
  or has been disconnected. *)
Theorem one_live_socket (w : World) (n : nat) (streamId : string) :
reachable rejects w →
OpenSocket n streamId ∈ trace w →
socketRef w = Some {| sock_id := n; sock_streamId := streamId |}
∨ DisconnectSocket n ∈ trace w.
Proof.
intros Hw. revert n streamId. revert w Hw.
apply (reachable_invariant rejects sockets_accounted).
- intros n streamId Hin. inversion Hin.
- apply handle_sockets_accounted.
Qed.

Lemma peers_accounted_effect (e : Effect) (w : World) :
(∀ n, e ≠ NewPeerConnection n) →
peers_accounted w → peers_accounted (record_effect e w).
Proof.
intros Hother H n Hin. simpl in *.
apply elem_of_app in Hin as [Hin|Hin].
- destruct (H n Hin) as [Hreg|Hclosed]; [left; exact Hreg|].
  right. apply elem_of_app. left. exact Hclosed.
- apply list_elem_of_singleton in Hin. exfalso. exact (Hother n (eq_sym Hin)).
Qed.

Lemma createPeerConnection_accounted (state : State) (userId : option string) :
preserves peers_accounted (createPeerConnection rejects state userId).
Proof.
intros w H.
unfold createPeerConnection, mbind, M_bind, read, new_id, call, update. simpl.
destruct (registry_get (peerConnectionsRef w) userId) eqn:Hget; simpl; try exact H.
destruct (rejects (trace w) (NewPeerConnection (fresh w))); simpl; [exact H|].
apply registry_get_absent in Hget.
intros n Hin. simpl in *. apply elem_of_app in Hin as [Hin|Hin].
- destruct (H n Hin) as [(key & pc & Hpc & Hid)|Hclosed].
  + left. exists key, pc. split; [|exact Hid].
    rewrite lookup_insert_ne; [exact Hpc|]. intros <-. congruence.
  + right. apply elem_of_app. left. exact Hclosed.
- apply list_elem_of_singleton in Hin. injection Hin as ->.
  left. eexists _, _. split; [apply lookup_insert_eq | reflexivity].
Qed.

Lemma cleanupPeerConnection_accounted (userId : option string) :
preserves peers_accounted (cleanupPeerConnection userId).
Proof.
intros w H.
unfold cleanupPeerConnection, mbind, M_bind, read, perform, dispatch, update, throw.
simpl.
destruct (registry_get (peerConnectionsRef w) userId) as [pc| |] eqn:Hget;
  simpl; try exact H.
apply registry_get_own in Hget.
intros n Hin. simpl in *. apply elem_of_app in Hin as [Hin|Hin].
- destruct (H n Hin) as [(key & pc' & Hpc & Hid)|Hclosed].
  + destruct (decide (key = prop_key userId)) as [->|Hne].
    * right. apply elem_of_app. right. apply list_elem_of_singleton.
      congruence.
    * left. exists key, pc'. split; [|exact Hid].
      rewrite lookup_delete_ne by congruence. exact Hpc.
  + right. apply elem_of_app. left. exact Hclosed.
- apply list_elem_of_singleton in Hin. discriminate.
Qed.

Lemma close_all_peers_accounted : preserves peers_accounted close_all_peers.
Proof.
intros w H.
unfold close_all_peers, mbind, M_bind, read. simpl.
rewrite forEach_perform. unfold update. simpl.
intros n Hin. simpl in *. right.
apply elem_of_app in Hin as [Hin|Hin].
- destruct (H n Hin) as [(key & pc & Hpc & Hid)|Hclosed].
  + apply elem_of_app. right.
    apply list_elem_of_fmap. exists pc. split; [congruence|].
    apply registry_values_elem. exists key. exact Hpc.
  + apply elem_of_app. left. exact Hclosed.
- apply list_elem_of_fmap in Hin as (pc & Heq & _). discriminate.
Qed.

Ltac unfold_handlers_around_peers :=
unfold startStreaming, joinStream, stopStreaming, stopViewing, sendChatMessage,
  initializeCamera, getUserMedia, connectWebSocket, on_connect, on_disconnect,
  handleWebSocketMessage, handleRemoteOffer, handleRemoteAnswer,
  handleRemoteIceCandidate,
  as_peer, onicecandidate, ontrack, onconnectionstatechange,
  disconnect_socket, parse, property, on_socket, on_peer,
  dispatch, perform, console_log, console_error.

Ltac peers_prim :=
let w := fresh "w" in let H := fresh "H" in
intros w H;
first [ exact H
      | apply peers_accounted_effect; [intros; discriminate | exact H] ].

Lemma handle_peers_accounted (e : Event) (w : World) :
peers_accounted w → peers_accounted (handle rejects e w).
Proof.
intros H. destruct e; simpl; try exact H;
match goal with
| |- peers_accounted (exec ?m w) =>
    cut (preserves peers_accounted m); [intros Hp; exact (Hp w H)|]
end;
repeat first
  [ match goal with
    | |- preserves _ (createPeerConnection _ _ _) =>
        apply createPeerConnection_accounted
    | |- preserves _ (cleanupPeerConnection _) =>
        apply cleanupPeerConnection_accounted
    | |- preserves _ close_all_peers => apply close_all_peers_accounted
    end
  | preserves_step peers_prim
  | progress unfold_handlers_around_peers ].
Qed.

(** X23. No peer connection is dropped without being closed: in every
  reachable world each peer connection that was ever created either is an
  entry of the registry or has been closed. *)
Theorem no_peer_connection_leaks (w : World) (n : nat) :
reachable rejects w →
NewPeerConnection n ∈ trace w →
(∃ key pc, peerConnectionsRef w !! key = Some pc ∧ pc_id pc = n)
∨ ClosePeer n ∈ trace w.
Proof.
intros Hw. revert n. revert w Hw.
apply (reachable_invariant rejects peers_accounted).
- intros n Hin. inversion Hin.
- apply handle_peers_accounted.
Qed.

End Accounting.

(** ** Answers and candidates for a known sender; the connected session *)

Section KnownPeer.

Variable rejects : list Effect → Effect → bool.

(** X24. An 'answer' or 'ice_candidate' envelope from a sender with a peer
  connection results in exactly one call, on that sender's connection:
  the description, respectively the candidate, is applied to it.  When
  the browser rejects the call, the error is caught and logged and the
  call leaves no mark.  Either way the router returns normally, and the
  state, the registry and the socket are as before. *)
Theorem answer_or_candidate_for_known_peer (state : State) (kind : string)
  (sender : option string) (payload : jsval) (pc : PeerConnection) (w : World) :
kind = "answer" ∨ kind = "ice_candidate" →
peerConnectionsRef w !! prop_key sender = Some pc →
let outcome :=
  run (handleWebSocketMessage rejects state
         (Parsed {| in_type := kind; sender_id := sender; in_data := payload |})) w in
let applied :=
  if String.eqb kind "answer" then SetRemoteDescription (pc_id pc) payload
  else AddIceCandidate (pc_id pc) payload in
outcome.1 = Ok ()
∧ trace outcome.2 = (if rejects (trace w) applied then trace w else trace w ++ [applied])
∧ length (console outcome.2)
  = (if rejects (trace w) applied then S (length (console w)) else length (console w))
∧ store outcome.2 = store w
∧ peerConnectionsRef outcome.2 = peerConnectionsRef w
∧ socketRef outcome.2 = socketRef w.
Proof.
intros Hkind Hpc outcome applied. subst outcome applied.
unfold run, handleWebSocketMessage, handleRemoteAnswer, handleRemoteIceCandidate,
  parse, registry_get.
destruct Hkind as [-> | ->]; simpl;
  unfold try_catch, mbind, M_bind, read, call, console_error, update; simpl;
  rewrite Hpc; simpl;
  match goal with |- context [rejects ?tr ?e] => destruct (rejects tr e) end;
  simpl; rewrite ?length_app; simpl; repeat split; lia.
Qed.

(** X25. Once the socket opened by [joinStream] or by a successful
  [startStreaming] connects, the session is marked connected and bound to
  the stream it was opened for.  When that socket later reports a
  disconnect, only the connected flag falls: the stream id, the viewing
  and streaming flags, the chat log and the registry stay, so the session
  is not torn down by a loss of transport. *)
Theorem connect_binds_session (streamId : string) (camera : MediaStream)
  (viewer : bool) (w : World) :
let opened :=
  if viewer then handle rejects (JoinStream streamId) w
  else handle rejects (StartStreaming streamId (Some camera)) w in
let connected := handle rejects SocketConnect opened in
let dropped := handle rejects SocketDisconnect connected in
isConnected (store connected) = true
∧ currentStreamId (store connected) = Some streamId
∧ (if viewer then isViewing (store connected) else isStreaming (store connected)) = true
∧ isConnected (store dropped) = false
∧ currentStreamId (store dropped) = Some streamId
∧ isViewing (store dropped) = isViewing (store connected)
∧ isStreaming (store dropped) = isStreaming (store connected)
∧ chatMessages (store dropped) = chatMessages (store connected)
∧ peerConnectionsRef dropped = peerConnectionsRef w
∧ socketRef dropped = socketRef opened.
Proof.
intros opened connected dropped. subst dropped connected opened.
destruct viewer; unfold handle; rewrite !exec_run;
  rewrite ?joinStream_run, ?startStreaming_run;
  unfold run, on_socket, on_connect, on_disconnect, mbind, M_bind, read;
  simpl; repeat split.
Qed.

End KnownPeer.

(** ** The render a callback closes over *)

(** X26. Whatever renders follow the mount, the offer handler that the
    socket's listener reaches closes over the state of the mount render,
    because the router is memoised with no dependency; the [sendChatMessage]
    and [stopStreaming] handed out by a render close over a state that
    agrees with that render's on the values they read (the connected flag
    and the current stream id, respectively the local media handle), because
    they list them as dependencies. *)
Theorem callbacks_close_over (mount : State) (later : list State) (i : nat)
    (callbacks : Callbacks) (state : State) :
  render_history (mount :: later) !! i = Some callbacks →
  (mount :: later) !! i = Some state →
  router_offer_state (mount :: later) i = Some mount
  ∧ (∃ seen, (mount :: later) !! (cb_sendChatMessage callbacks).1 = Some seen
       ∧ isConnected seen = isConnected state
       ∧ currentStreamId seen = currentStreamId state)
  ∧ (∃ seen, (mount :: later) !! (cb_stopStreaming callbacks).1 = Some seen
       ∧ localStream seen = localStream state).
Proof.
  intros Hc Hs. split.
  - apply router_offer_state_is_mount. apply (lookup_lt_Some _ _ _ Hs).
  - destruct (render_history_sound _ _ _ _ Hc Hs) as (_ & _ & H1 & _ & H2).
    split; assumption.
Qed.

(** ** Instances of the further properties *)

Lemma viewing_s1_reachable : reachable accepts_all viewing_s1.
Proof. exists joined_events. reflexivity. Qed.

Lemma viewing_s1_peer : peerConnectionsRef viewing_s1 !! "P" = Some peer_P.
Proof. vm_compute. reflexivity. Qed.

Lemma viewing_s1_socket :
  socketRef viewing_s1 = Some {| sock_id := 0; sock_streamId := "s1" |}.
Proof. reflexivity. Qed.

Lemma other_envelopes_only_log_witness :
  (run (handleWebSocketMessage accepts_all initialState presence_notice) viewing_s1).1
  = Ok ()
  ∧ store (run (handleWebSocketMessage accepts_all initialState presence_notice)
             viewing_s1).2 = store viewing_s1.
Proof.
  destruct (other_envelopes_only_log accepts_all initialState presence_notice viewing_s1)
    as (H1 & H2 & _).
  - simpl. intros H. repeat (apply elem_of_cons in H as [H|H]; [discriminate|]).
    inversion H.
  - split; [exact H1 | exact H2].
Defined.

Lemma registry_one_connection_per_user_witness :
  prop_key (pc_userId peer_P) = "P".
Proof.
  exact (proj1 (registry_one_connection_per_user accepts_all viewing_s1 "P" "P"
                  peer_P peer_P viewing_s1_reachable viewing_s1_peer viewing_s1_peer)).
Defined.

Lemma peer_state_change_teardown_witness :
  connectionState
    (store (handle accepts_all (PeerConnectionState "P" PcFailed) viewing_s1))
  = "failed"
  ∧ peerConnectionsRef (handle accepts_all (PeerConnectionState "P" PcFailed) viewing_s1)
    = delete "P" (peerConnectionsRef viewing_s1).
Proof.
  destruct (peer_state_change_teardown accepts_all viewing_s1 "P" peer_P PcFailed
              viewing_s1_reachable viewing_s1_peer) as (H1 & _ & H2 & _).
  split; [exact H1 | exact H2].
Defined.

Lemma remote_track_is_filed_witness :
  remoteStreams (store (handle accepts_all (PeerTrack "P" [8; 9]) viewing_s1))
  = <["P" := Some 8]> (remoteStreams (store viewing_s1)).
Proof.
  exact (proj1 (remote_track_is_filed accepts_all viewing_s1 "P" peer_P [8; 9]
                  viewing_s1_reachable viewing_s1_peer)).
Defined.

Lemma ice_candidate_is_forwarded_witness :
  handle accepts_all (PeerIceCandidate "P" (Some (VStr "candidate:1"))) viewing_s1
  = record_effect
      (Emit 0 {| type := "ice_candidate"; data := DCandidate (VStr "candidate:1");
                 target_id := Some "P"; stream_id := None |}) viewing_s1.
Proof.
  exact (proj1 (ice_candidate_is_forwarded accepts_all viewing_s1 "P" peer_P
                  (Some (VStr "candidate:1")) viewing_s1_reachable viewing_s1_peer)).
Defined.

Lemma offer_is_answered_witness :
  store (handle accepts_all (SocketMessage
           (Parsed {| in_type := "offer"; sender_id := Some "Q"; in_data := VNull |}))
           streaming_s1)
  = store streaming_s1.
Proof.
  refine (proj2 (proj2 (offer_is_answered accepts_all streaming_s1
                          {| sock_id := 0; sock_streamId := "s1" |} (Some "Q") VNull
                          _ _ _))).
  - intros tr e. reflexivity.
  - reflexivity.
  - vm_compute. reflexivity.
Defined.

Lemma rejected_offer_keeps_peer_witness :
  trace (handle rejects_descriptions (SocketMessage
           (Parsed {| in_type := "offer"; sender_id := Some "Q"; in_data := VNull |}))
           streaming_s1)
  = trace streaming_s1 ++ [NewPeerConnection (fresh streaming_s1)].
Proof.
  refine (proj1 (proj2 (rejected_offer_keeps_peer rejects_descriptions streaming_s1
                          {| sock_id := 0; sock_streamId := "s1" |} (Some "Q") VNull
                          _ _ _ _ _))).
  - reflexivity.
  - vm_compute. reflexivity.
  - vm_compute. reflexivity.
  - reflexivity.
  - reflexivity.
Defined.

Lemma only_camera_failure_throws_witness :
  (run (handler accepts_all (SocketMessage Garbled)) viewing_s1).1 = Ok ().
Proof.
  exact (only_camera_failure_throws accepts_all (SocketMessage Garbled) viewing_s1
           viewing_s1_reachable).
Defined.

Lemma inbound_chat_is_appended_witness :
  length (chatMessages
            (store (handle accepts_all (SocketMessage (chat_from (VStr "hi")))
                      viewing_s1))) ≤ 100.
Proof.
  exact (proj1 (proj2 (inbound_chat_is_appended accepts_all viewing_s1
                         {| sock_id := 0; sock_streamId := "s1" |} (VStr "hi")
                         viewing_s1_reachable viewing_s1_socket))).
Defined.

Lemma connected_session_is_bound_witness :
  is_Some (socketRef viewing_s1) ∧ is_Some (currentStreamId (store viewing_s1)).
Proof.
  apply (connected_session_is_bound accepts_all viewing_s1 viewing_s1_reachable).
  reflexivity.
Defined.

Lemma hasPermission_follows_owning_role_witness :
  hasPermission (Some model_user) "create_streams" = Some true
  ∧ hasPermission (Some admin_user) "create_streams" = Some false.
Proof.
  split.
  - refine (proj1 (hasPermission_follows_owning_role model_user ["user"; "model"]
                     "model" _ "create_streams" eq_refl _ _ _)).
    + repeat constructor.
    + unfold rolePermissions. apply list_elem_of_further, list_elem_of_here.
    + apply list_elem_of_here.
  - refine (proj1 (hasPermission_follows_owning_role admin_user ["admin"]
                     "model" _ "create_streams" eq_refl _ _ _)).
    + repeat constructor.
    + unfold rolePermissions. apply list_elem_of_further, list_elem_of_here.
    + apply list_elem_of_here.
Defined.

Lemma one_live_socket_witness :
  socketRef viewing_s1 = Some {| sock_id := 0; sock_streamId := "s1" |}
  ∨ DisconnectSocket 0 ∈ trace viewing_s1.
Proof.
  apply (one_live_socket accepts_all viewing_s1 0 "s1" viewing_s1_reachable).
  vm_compute. repeat constructor.
Defined.

Lemma no_peer_connection_leaks_witness :
  (∃ key pc, peerConnectionsRef viewing_s1 !! key = Some pc ∧ pc_id pc = 1)
  ∨ ClosePeer 1 ∈ trace viewing_s1.
Proof.
  apply (no_peer_connection_leaks accepts_all viewing_s1 1 viewing_s1_reachable).
  vm_compute. repeat constructor.
Defined.

Lemma answer_or_candidate_for_known_peer_witness :
  trace (run (handleWebSocketMessage accepts_all initialState
                (Parsed {| in_type := "answer"; sender_id := Some "P";
                           in_data := VNull |})) viewing_s1).2
  = trace viewing_s1 ++ [SetRemoteDescription 1 VNull].
Proof.
  exact (proj1 (proj2 (answer_or_candidate_for_known_peer accepts_all initialState
                         "answer" (Some "P") VNull peer_P viewing_s1
                         (or_introl eq_refl) viewing_s1_peer))).
Defined.

Lemma callbacks_close_over_witness :
  router_offer_state three_renders 2 = Some initialState.
Proof.
  refine (proj1 (callbacks_close_over initialState (tail three_renders) 2
                   (render_callbacks
                      (Some (render_callbacks (Some (render_callbacks None 0 initialState))
                               1
                               (webrtcReducer
                                  (webrtcReducer initialState (SET_CONNECTED true))
                                  (SET_CURRENT_STREAM (Some "s1")))))
                      2
                      (webrtcReducer
                         (webrtcReducer (webrtcReducer initialState (SET_CONNECTED true))
                            (SET_CURRENT_STREAM (Some "s1")))
                         (SET_LOCAL_STREAM (Some camera1))))
                   (webrtcReducer
                      (webrtcReducer (webrtcReducer initialState (SET_CONNECTED true))
                         (SET_CURRENT_STREAM (Some "s1")))
                      (SET_LOCAL_STREAM (Some camera1)))
                   _ _)); reflexivity.
Defined.

(** ** The roster, and stopping twice *)

Section Rest.

Variable rejects : list Effect → Effect → bool.

Lemma handle_roster_untouched (e : Event) (w : World) :
viewers (store w) = [] ∧ streamInfo (store w) = VNull →
viewers (store (handle rejects e w)) = []
∧ streamInfo (store (handle rejects e w)) = VNull.
Proof.
intros H. destruct e; simpl; try exact H;
match goal with
| |- viewers (store (exec ?m w)) = [] ∧ _ =>
    cut (preserves (λ w, viewers (store w) = [] ∧ streamInfo (store w) = VNull) m);
    [intros Hp; exact (Hp w H)|]
end;
preserves_auto ltac:(intros ? ?; simpl; first [assumption | split; reflexivity]).
Qed.

(** X27. The provider never fills the roster: in every reachable world
  [viewers] is empty and [streamInfo] is [null].  Presence notices are
  only logged, and no call or event dispatches an update of either. *)
Theorem roster_is_never_filled (events : list Event) :
viewers (store (handle_all rejects events initialWorld)) = []
∧ streamInfo (store (handle_all rejects events initialWorld)) = VNull.
Proof.
induction events as [|e events IH] using rev_ind.
- split; reflexivity.
- rewrite handle_all_snoc. apply handle_roster_untouched, IH.
Qed.

(** X28. Calling [stopViewing] a second time changes neither the state nor
  the registry: there is no peer connection left to close, and the only
  call it makes is another [disconnect()] on the socket still held. *)
Theorem stopViewing_twice (w : World) :
let once := exec stopViewing w in
let twice := exec stopViewing once in
store twice = store once
∧ peerConnectionsRef twice = peerConnectionsRef once
∧ socketRef twice = socketRef once
∧ trace twice = trace once ++ disconnect_held w.
Proof.
intros once twice. subst twice once.
rewrite !exec_run, !stopViewing_run. simpl.
unfold closing_calls, disconnect_held. simpl.
rewrite registry_values_empty. repeat split.
Qed.

End Rest.

(** ** Senders named like a property of [Object.prototype], and the order
    of the [close()] calls *)

Section Inherited.

Variable rejects : list Effect → Effect → bool.

Lemma own_keys_only_bump (w : World) : own_keys_only w → own_keys_only (bump_fresh w).
Proof. intros H. exact H. Qed.

Lemma own_keys_only_delete (key : string) (w : World) :
  own_keys_only w → own_keys_only (set_peers (delete key) w).
Proof.
  intros H k pc Hpc. simpl in Hpc.
  apply lookup_delete_Some in Hpc as [_ Hpc]. exact (H k pc Hpc).
Qed.

Lemma own_keys_only_clear (w : World) : own_keys_only (set_peers (λ _, ∅) w).
Proof. intros k pc Hpc. simpl in Hpc. rewrite lookup_empty in Hpc. discriminate. Qed.

Lemma createPeerConnection_own_keys_only (state : State) (userId : option string) :
  preserves own_keys_only (createPeerConnection rejects state userId).
Proof.
  intros w Hok.
  unfold createPeerConnection, mbind, M_bind, read, new_id, call, update. simpl.
  destruct (registry_get (peerConnectionsRef w) userId) eqn:Hget; simpl; try exact Hok.
  destruct (rejects (trace w) (NewPeerConnection (fresh w))); simpl; [exact Hok|].
  intros key pc Hpc. simpl in Hpc.
  apply lookup_insert_Some in Hpc as [[<- <-]|[Hne Hpc]]; [|exact (Hok key pc Hpc)].
  unfold registry_get in Hget.
  destruct (peerConnectionsRef w !! prop_key userId); [discriminate|].
  destruct (inherited_key (prop_key userId)); [discriminate|reflexivity].
Qed.

(** [createPeerConnection] files a new connection at the end of the
    registry's values, unless the user id is an array index. *)
Lemma createPeerConnection_listed_last (state : State) (userId : option string)
    (w : World) :
  registry_ok w →
  rejects (trace w) (NewPeerConnection (fresh w)) = false →
  registry_get (peerConnectionsRef w) userId = Absent →
  array_index (prop_key userId) = None →
  registry_values
    (peerConnectionsRef (exec (createPeerConnection rejects state userId) w))
  = registry_values (peerConnectionsRef w)
    ++ [{| pc_id := fresh w; pc_userId := userId;
           pc_streamId := currentStreamId state |}].
Proof.
  intros [Hkey Hinj] Hacc Hget Hindex.
  unfold exec, createPeerConnection, mbind, M_bind, read, new_id, call, update.
  simpl. rewrite Hget. simpl. rewrite Hacc. simpl.
  apply registry_values_insert.
  - apply registry_get_absent, Hget.
  - exact Hindex.
  - intros k pc' Hpc. simpl. apply (Hkey k pc' Hpc).
  - exact Hinj.
Qed.

Ltac unfold_handlers_around_create :=
  unfold startStreaming, joinStream, stopStreaming, stopViewing, sendChatMessage,
    initializeCamera, getUserMedia, connectWebSocket, on_connect, on_disconnect,
    handleWebSocketMessage, handleRemoteOffer, handleRemoteAnswer,
    handleRemoteIceCandidate, cleanupPeerConnection,
    as_peer, onicecandidate, ontrack, onconnectionstatechange, close_all_peers,
    disconnect_socket, parse, property, on_socket, on_peer,
    dispatch, perform, console_log, console_error.

Ltac own_keys_prim :=
  let w := fresh "w" in let H := fresh "H" in
  intros w H;
  first [ exact H
        | apply own_keys_only_delete; exact H
        | apply own_keys_only_clear ].

Lemma handle_own_keys_only (e : Event) (w : World) :
  own_keys_only w → own_keys_only (handle rejects e w).
Proof.
  intros H. destruct e; simpl; try exact H;
  match goal with
  | |- own_keys_only (exec ?m w) =>
      cut (preserves own_keys_only m); [intros Hp; exact (Hp w H)|]
  end;
  repeat first
    [ match goal with
      | |- preserves _ (createPeerConnection _ _ _) =>
          apply createPeerConnection_own_keys_only
      end
    | preserves_step own_keys_prim
    | progress unfold_handlers_around_create ].
Qed.

(** No peer connection is ever filed under the name of a property that
    every object inherits. *)
Lemma reachable_own_keys_only (w : World) : reachable rejects w → own_keys_only w.
Proof.
  apply reachable_invariant.
  - intros key pc Hpc. simpl in Hpc. rewrite lookup_empty in Hpc. discriminate.
  - apply handle_own_keys_only.
Qed.

(** X29. An offer whose sender id is the name of a property of
    [Object.prototype] ('constructor', 'toString', '__proto__', ...) is
    dropped: the registry lookup of [createPeerConnection] finds the
    inherited property, no peer connection is created, the call of
    [setRemoteDescription] on what was found throws, and the handler only
    writes "Error handling remote offer:" to the console.  No call is made
    on the outside, no answer is sent, and the state, the registry and the
    socket are as before. *)
Theorem offer_from_prototype_name_is_dropped (w : World) (s : Socket)
    (sender : option string) (payload : jsval) :
  reachable rejects w →
  socketRef w = Some s →
  inherited_key (prop_key sender) = true →
  handle rejects
    (SocketMessage (Parsed {| in_type := "offer"; sender_id := sender;
                              in_data := payload |})) w
  = record_console "Error handling remote offer:" w.
Proof.
  intros Hw Hs Hkey.
  assert (Hnone : peerConnectionsRef w !! prop_key sender = None).
  { destruct (peerConnectionsRef w !! prop_key sender) as [pc|] eqn:Hpc;
      [|reflexivity].
    pose proof (reachable_own_keys_only w Hw _ _ Hpc) as Hown. congruence. }
  unfold handle, exec, on_socket, mbind, M_bind, read. simpl. rewrite Hs.
  unfold handleWebSocketMessage, parse, handleRemoteOffer, createPeerConnection,
    as_peer, registry_get, try_catch, mbind, M_bind, mret, M_ret, read, throw,
    console_error, update.
  simpl. rewrite Hnone, Hkey. reflexivity.
Qed.

End Inherited.

(** A streamer answered "Q", then "P", then "3": [stopStreaming] and
    [stopViewing] close the connection filed under the integer-like key
    first, then the other two in the order in which they were created. *)
Example stop_closes_in_object_order :
  let w := handle_all accepts_all
             [SocketMessage (offer_from "Q"); SocketMessage (offer_from "P");
              SocketMessage (offer_from "3")] streaming_s1 in
  (pc_id <$> peerConnectionsRef w !! "Q" = Some 1
   ∧ pc_id <$> peerConnectionsRef w !! "P" = Some 2
   ∧ pc_id <$> peerConnectionsRef w !! "3" = Some 3)
  ∧ trace (handle accepts_all StopStreaming w)
    = trace w ++ [StopTrack 11; StopTrack 12; ClosePeer 3; ClosePeer 1; ClosePeer 2;
                  DisconnectSocket 0]
  ∧ trace (handle accepts_all StopViewing w)
    = trace w ++ [ClosePeer 3; ClosePeer 1; ClosePeer 2; DisconnectSocket 0].
Proof.
  cbv zeta. repeat match goal with |- _ ∧ _ => split end; vm_compute; reflexivity.
Qed.

Lemma offer_from_prototype_name_is_dropped_witness :
  handle accepts_all
    (SocketMessage (Parsed {| in_type := "offer"; sender_id := Some "constructor";
                              in_data := VNull |})) viewing_s1
  = record_console "Error handling remote offer:" viewing_s1.
Proof.
  apply (offer_from_prototype_name_is_dropped accepts_all viewing_s1
           {| sock_id := 0; sock_streamId := "s1" |} (Some "constructor") VNull).
  - exact viewing_s1_reachable.
  - reflexivity.
  - vm_compute. reflexivity.
Defined.
